(** * TCP-Chat-CPP: a shallow embedding of [ChatServer] (src/main.cpp)

    The server is a single-threaded [select] loop over a listening socket and
    the accepted client sockets.  Its state is the four private members of
    [ChatServer]; every system call it makes ([send], [shutdown], [close]) and
    every line it prints is recorded, in order, in a ghost [trace].  What the
    operating system answers ([accept], [recv], [select], the result of each
    [send]) is an input of the model.

    Sockets are [int] in the source and are only compared, never computed
    with, so they are modelled as [Z].  [std::string] and [std::string_view]
    are byte strings: Rocq's [string].  [fd_set] is a finite set of
    descriptors: [gset Z].  [std::list<Client>] is a [list Client] in
    insertion order. *)

From stdpp Require Import gmap strings list pretty.
From Stdlib Require Import Ascii ZArith Lia.
From Stdlib Require String.

Local Open Scope Z_scope.

(** ** Constants *)

Definition HOSTNAME : string := "127.0.0.1".
Definition PORT : Z := 3000.
Definition BUFFER_SIZE : nat := 1024.

(** [errno] values of Linux used by the source. *)
Definition EINTR : Z := 4.
Definition EPIPE : Z := 32.
Definition ECONNRESET : Z := 104.

Definition CR : ascii := "013"%char.
Definition LF : ascii := "010"%char.
Definition NUL : ascii := "000"%char.
Definition CRLF : string := String CR (String LF EmptyString).
Definition NL : string := String LF EmptyString.

(** ** Data model *)

(** [struct Client { SocketT socket; std::string nickname; }] *)
Record Client := mkClient { socket : Z; nickname : string }.

#[global] Instance Client_eq_dec : EqDecision Client.
Proof. solve_decision. Defined.

(** What the process does to the outside world. *)
Inductive Event :=
| EvSend (fd : Z) (message : string)
| EvShutdown (fd : Z)
| EvClose (fd : Z)
| EvStdout (line : string)
| EvStderr (line : string).

#[global] Instance Event_eq_dec : EqDecision Event.
Proof. solve_decision. Defined.

(** The members of [ChatServer], and the ghost trace of effects. *)
Record State := mkState {
  clients : list Client;
  server_socket : Z;
  master_set : gset Z;
  max_fd : Z;
  trace : list Event
}.

Definition emit (e : Event) (st : State) : State :=
  mkState (clients st) (server_socket st) (master_set st) (max_fd st)
          (trace st ++ [e]).

Definition set_clients (cs : list Client) (st : State) : State :=
  mkState cs (server_socket st) (master_set st) (max_fd st) (trace st).

Definition set_master_set (fds : gset Z) (st : State) : State :=
  mkState (clients st) (server_socket st) fds (max_fd st) (trace st).

Definition set_max_fd (fd : Z) (st : State) : State :=
  mkState (clients st) (server_socket st) (master_set st) fd (trace st).

(** ** Answers of the operating system *)

(** [send] returns a count or -1 and then sets [errno]. *)
Record SendRet := mkSendRet { sent : Z; send_errno : Z }.

(** [accept] returns a descriptor or -1 with [errno], and the peer address,
    which the source only prints through [inet_ntoa]. *)
Record AcceptRet := mkAcceptRet { new_socket : Z; accept_errno : Z; peer : string }.

(** What a socket holds when [recv] is called on it: an error, or the bytes
    queued by the kernel (none at end of stream). *)
Inductive RecvInput :=
| RecvError (errno : Z)
| RecvQueued (data : list ascii).

(** What [select] reports: an error, or the descriptors that are readable. *)
Inductive SelectInput :=
| SelectError (errno : Z)
| SelectReady (ready : gset Z).

(** [recv(socket, buffer.data(), len, 0)]: at most [len] of the queued bytes
    are copied to the front of the buffer and their number is returned; the
    rest stays queued. *)
Definition recv (inp : RecvInput) (buffer : list ascii) (len : nat)
  : Z * list ascii :=
  match inp with
  | RecvError _ => (-1, buffer)
  | RecvQueued data =>
      let got := take len data in
      (Z.of_nat (length got), got ++ drop (length got) buffer)
  end.

Definition recv_errno (inp : RecvInput) : Z :=
  match inp with RecvError e => e | RecvQueued _ => 0 end.

(** The bytes still queued on the socket after such a [recv]. *)
Definition recv_rest (inp : RecvInput) (len : nat) : list ascii :=
  match inp with RecvError _ => [] | RecvQueued data => drop len data end.

(** [select(nfds, &read_fds, ...)]: of the watched descriptors below [nfds],
    those that are readable stay in the set. *)
Definition select (nfds : Z) (read_fds ready : gset Z) : gset Z :=
  filter (fun fd => 0 <= fd < nfds /\ fd ∈ ready) read_fds.

(** [buffer[i] = c] on a [std::vector<char>]: undefined behaviour outside the
    vector, modelled as [None]. *)
Definition vector_store (buffer : list ascii) (i : nat) (c : ascii)
  : option (list ascii) :=
  if decide (i < length buffer)%nat then Some (<[i:=c]> buffer) else None.

(** ** [std::string_view] operations used by the source *)

Definition is_terminator (c : ascii) : bool :=
  bool_decide (c = CR) || bool_decide (c = LF).

(** [message.find_first_of("\r\n")]; [None] is [npos]. *)
Fixpoint find_first_of (message : string) : option nat :=
  match message with
  | EmptyString => None
  | String c rest =>
      if is_terminator c then Some 0%nat
      else S <$> find_first_of rest
  end.

(** [message.substr(0, n)] *)
Definition substr0 (message : string) (n : nat) : string :=
  String.substring 0 n message.

(** [s.empty()] *)
Definition empty (s : string) : bool := bool_decide (s = EmptyString).

(** ** Message texts *)

Definition prompt_msg : string := "👋 Enter nickname:" +:+ CRLF +:+ "> ".
Definition taken_msg : string := "❌ Nickname taken, choose another:" +:+ CRLF +:+ "> ".
Definition alone_msg : string := "🎉 Welcome! You are the only user here." +:+ CRLF.

Definition online_msg (count : nat) (online_users : string) : string :=
  "🎉 Welcome! " +:+ pretty count +:+ " users online." +:+ CRLF +:+
  "👥 Users: " +:+ online_users +:+ CRLF.

Definition join_msg (nick : string) : string :=
  "👋 " +:+ nick +:+ " joined the chat" +:+ CRLF.

Definition left_msg (nick : string) : string :=
  "👋 " +:+ nick +:+ " left the chat" +:+ CRLF.

Definition chat_msg (nick message : string) : string :=
  "💬 " +:+ nick +:+ ": " +:+ message +:+ CRLF.

(** ** The server *)

Section Server.

(** The result of a [send], which may depend on all that happened before. *)
Variable os_send : list Event -> Z -> string -> SendRet.
(** [strerror] *)
Variable strerror : Z -> string.

Definition sys_send (fd : Z) (message : string) (st : State) : SendRet * State :=
  (os_send (trace st) fd message, emit (EvSend fd message) st).

(** [setup_server], when [socket], [setsockopt], [bind] and [listen] all
    succeed; any failure throws before the loop starts. *)
Definition setup_server (listen_fd : Z) : State :=
  mkState [] listen_fd {[listen_fd]} listen_fd
    [EvStdout ("🚀 Server running on " +:+ HOSTNAME +:+ ":" +:+ pretty PORT +:+ NL)].

Fixpoint broadcast_loop (targets : list Client) (message : string) (st : State)
  : State :=
  match targets with
  | [] => st
  | client :: rest =>
      let '(r, st) := sys_send (socket client) message st in
      let st :=
        if (sent r <? 0) && negb (send_errno r =? EPIPE)
        then emit (EvStderr ("broadcast send failed: " +:+ strerror (send_errno r) +:+ NL)) st
        else st in
      broadcast_loop rest message st
  end.

Definition broadcast (sender_fd : Z) (message : string) (st : State) : State :=
  broadcast_loop (filter (fun c => socket c ≠ sender_fd) (clients st)) message st.

Fixpoint find_client (cs : list Client) (s : Z) : option Client :=
  match cs with
  | [] => None
  | c :: rest => if decide (socket c = s) then Some c else find_client rest s
  end.

Definition nickname_exists (cs : list Client) (nick : string) : bool :=
  bool_decide (Exists (fun c => nickname c = nick) cs).

(** The accumulator of the [fold_left] in [send_welcome]. *)
Definition join_step (acc nick : string) : string :=
  if empty acc then nick else acc +:+ ", " +:+ nick.

Definition online_users (cs : list Client) (s : Z) : string :=
  fold_left join_step
    (nickname <$> filter (fun c => socket c ≠ s /\ nickname c ≠ EmptyString) cs)
    EmptyString.

Definition online_count (cs : list Client) (s : Z) : nat :=
  length (filter (fun c => socket c ≠ s /\ nickname c ≠ EmptyString) cs).

Definition welcome_msg (cs : list Client) (s : Z) : string :=
  let count := online_count cs s in
  if (count =? 0)%nat then alone_msg else online_msg count (online_users cs s).

Definition send_welcome (s : Z) (st : State) : State :=
  let message := welcome_msg (clients st) s in
  let '(r, st) := sys_send s message st in
  if (sent r <? 0) && negb (send_errno r =? EPIPE)
  then emit (EvStderr ("send welcome failed: " +:+ strerror (send_errno r) +:+ NL)) st
  else st.

Definition register_client (s : Z) (nick : string) (st : State) : State :=
  if nickname_exists (clients st) nick then
    snd (sys_send s taken_msg st)
  else
    let st := set_clients (clients st ++ [mkClient s nick]) st in
    let st := emit (EvStdout ("👤 Registered: " +:+ nick +:+ NL)) st in
    let st := send_welcome s st in
    broadcast s (join_msg nick) st.

(** The rescan of [remove_client]: the largest of [server_socket] and the
    sockets of [clients]. *)
Definition rescan_max (cs : list Client) (start : Z) : Z :=
  fold_left (fun m c => if m <? socket c then socket c else m) cs start.

Definition remove_client (s : Z) (st : State) : State :=
  match find_client (clients st) s with
  | Some client =>
      let name := if empty (nickname client) then "unknown" else nickname client in
      let msg := left_msg name in
      let st := emit (EvStdout ("❌ " +:+ name +:+ " disconnected" +:+ NL)) st in
      let st := broadcast s msg st in
      let st := emit (EvShutdown s) st in
      let st := emit (EvClose s) st in
      let st := set_master_set (master_set st ∖ {[s]}) st in
      let st := set_clients (filter (fun c => socket c ≠ s) (clients st)) st in
      if decide (s = max_fd st)
      then set_max_fd (rescan_max (clients st) (server_socket st)) st
      else st
  | None => st
  end.

Definition handle_new_connection (a : AcceptRet) (st : State) : State :=
  if new_socket a <? 0 then
    emit (EvStderr ("accept failed: " +:+ strerror (accept_errno a) +:+ NL)) st
  else
    let st := set_master_set ({[new_socket a]} ∪ master_set st) st in
    let st := if max_fd st <? new_socket a then set_max_fd (new_socket a) st else st in
    let st := emit (EvStdout ("✅ Connected: " +:+ peer a +:+ NL)) st in
    let '(r, st) := sys_send (new_socket a) prompt_msg st in
    if sent r <? 0 then
      let st := emit (EvStderr ("send prompt failed: " +:+ strerror (send_errno r) +:+ NL)) st in
      let st := emit (EvClose (new_socket a)) st in
      set_master_set (master_set st ∖ {[new_socket a]}) st
    else st.

(** The part of [handle_client_data] after the line has been cut out of the
    buffer (from [if (message.empty())] on). *)
Definition handle_line (s : Z) (message : string) (st : State) : State :=
  if empty message then st
  else
    match find_client (clients st) s with
    | None => register_client s message st
    | Some client =>
        let broadcast_msg := chat_msg (nickname client) message in
        let st := emit (EvStdout ("📢 " +:+ nickname client +:+ ": " +:+ message +:+ NL)) st in
        broadcast s broadcast_msg st
    end.

(** The line cut out of what was read: up to the first terminator. *)
Definition cut_line (message : string) : string :=
  match find_first_of message with
  | Some end_pos => substr0 message end_pos
  | None => message
  end.

(** [handle_client_data]; [None] is an out-of-bounds store into [buffer]. *)
Definition handle_client_data (s : Z) (inp : RecvInput) (st : State)
  : option State :=
  let buffer := replicate BUFFER_SIZE NUL in
  let '(bytes, buffer) := recv inp buffer (length buffer - 1) in
  if bytes <? 0 then
    let e := recv_errno inp in
    let st :=
      if (e =? ECONNRESET) || (e =? EPIPE)
      then emit (EvStdout ("Connection reset by peer (socket " +:+ pretty s +:+ ")" +:+ NL)) st
      else emit (EvStderr ("recv error: " +:+ strerror e +:+ NL)) st in
    Some (remove_client s st)
  else if bytes =? 0 then
    let st := emit (EvStdout ("Client " +:+ pretty s +:+ " closed connection" +:+ NL)) st in
    Some (remove_client s st)
  else
    buffer ← vector_store buffer (Z.to_nat bytes) NUL;
    let message := String.string_of_list_ascii (take (Z.to_nat bytes) buffer) in
    Some (handle_line s (cut_line message) st).

(** ** The loop *)

(** What the operating system supplies during one turn of [while (true)]. *)
Record LoopInput := mkLoopInput {
  in_select : SelectInput;
  in_accept : AcceptRet;
  in_recv : Z -> RecvInput
}.

(** The [for] over [iota(0, max_fd + 1)]; [read_fds] and the range are fixed
    when the loop starts. *)
Fixpoint ready_loop (fds : list Z) (read_fds : gset Z) (inp : LoopInput)
    (st : State) : option State :=
  match fds with
  | [] => Some st
  | fd :: rest =>
      st ← (if decide (fd ∈ read_fds) then
              if decide (fd = server_socket st)
              then Some (handle_new_connection (in_accept inp) st)
              else handle_client_data fd (in_recv inp fd) st
            else Some st);
      ready_loop rest read_fds inp st
  end.

Definition run_iteration (inp : LoopInput) (st : State) : option State :=
  match in_select inp with
  | SelectError e =>
      if e =? EINTR then Some st
      else Some (emit (EvStderr ("select error: " +:+ strerror e +:+ NL)) st)
  | SelectReady ready =>
      let read_fds := select (max_fd st + 1) (master_set st) ready in
      ready_loop (seqZ 0 (max_fd st + 1)) read_fds inp st
  end.

(** A finite prefix of [run]. *)
Fixpoint run (inps : list LoopInput) (st : State) : option State :=
  match inps with
  | [] => Some st
  | inp :: rest => st ← run_iteration inp st; run rest st
  end.

End Server.

(** ** Operations on the registry, and the states the server reaches *)

(** The three operations that read or change the registry. *)
Inductive Op :=
| OpRegister (s : Z) (nick : string)
| OpBroadcast (s : Z) (text : string)
| OpDisconnect (s : Z).

Section Reach.

Variable os_send : list Event -> Z -> string -> SendRet.
Variable strerror : Z -> string.

Definition apply_op (st : State) (op : Op) : State :=
  match op with
  | OpRegister s nick => register_client os_send strerror s nick st
  | OpBroadcast s text => broadcast os_send strerror s text st
  | OpDisconnect s => remove_client os_send strerror s st
  end.

Definition apply_ops (ops : list Op) (st : State) : State :=
  fold_left apply_op ops st.

(** The states between two handler calls of [run]: it starts from
    [setup_server], calls [handle_new_connection] for the listening socket
    and [handle_client_data] for any other descriptor, and prints when
    [select] fails. *)
Inductive reachable : State -> Prop :=
| reach_setup listen_fd :
    0 <= listen_fd -> reachable (setup_server listen_fd)
| reach_accept st a :
    reachable st -> reachable (handle_new_connection os_send strerror a st)
| reach_data st s inp st' :
    reachable st -> s ≠ server_socket st ->
    handle_client_data os_send strerror s inp st = Some st' ->
    reachable st'
| reach_select_error st e :
    reachable st ->
    reachable (emit (EvStderr ("select error: " +:+ strerror e +:+ NL)) st).

(** Successive reads of one socket whose queue holds [data] and receives
    nothing more: each [recv] of [handle_client_data] finds what the
    previous one left.  [n] bounds the number of reads. *)
Fixpoint queue_reads (n : nat) (data : list ascii) : list RecvInput :=
  match n, data with
  | O, _ | _, [] => []
  | S n, _ => RecvQueued data :: queue_reads n (recv_rest (RecvQueued data) (BUFFER_SIZE - 1))
  end.

(** [handle_client_data] on [s] once per read. *)
Fixpoint handle_reads (s : Z) (reads : list RecvInput) (st : State) : option State :=
  match reads with
  | [] => Some st
  | inp :: rest =>
      st ← handle_client_data os_send strerror s inp st;
      handle_reads s rest st
  end.

End Reach.

(** ** The specification's words, for comparison *)

(** A chunk truncated at its first line terminator. *)
Fixpoint truncate_at_terminator (chunk : string) : string :=
  match chunk with
  | EmptyString => EmptyString
  | String c rest =>
      if is_terminator c then EmptyString
      else String c (truncate_at_terminator rest)
  end.

(** Nicknames joined by a comma and a space. *)
Definition comma_join (names : list string) : string := String.concat ", " names.

(** The clients that are named and are not the joining connection. *)
Definition named_others (cs : list Client) (s : Z) : list Client :=
  filter (fun c => nickname c ≠ EmptyString) (filter (fun c => socket c ≠ s) cs).

(** A nickname collides when a client other than the connection holds it. *)
Definition collides (cs : list Client) (s : Z) (nick : string) : Prop :=
  ∃ c, c ∈ cs ∧ socket c ≠ s ∧ nickname c = nick.

(** The [send] events of a trace, in order. *)
Definition sends (tr : list Event) : list (Z * string) :=
  omap (fun e => match e with EvSend fd m => Some (fd, m) | _ => None end) tr.

(** The pieces of at most [n] bytes a queue is read in. *)
Fixpoint chunks (fuel n : nat) (data : list ascii) : list string :=
  match fuel, data with
  | O, _ | _, [] => []
  | S fuel, _ => String.string_of_list_ascii (take n data) :: chunks fuel n (drop n data)
  end.

(** Events that neither close a descriptor nor shut it down. *)
Definition harmless (e : Event) : Prop :=
  match e with
  | EvShutdown _ | EvClose _ => False
  | _ => True
  end.

(** What holds of the registry between two handler calls. *)
Record registry_inv (cs : list Client) : Prop := mkRegistryInv {
  inv_nicknames : NoDup (nickname <$> cs);
  inv_sockets : NoDup (socket <$> cs);
  inv_named : Forall (fun c => nickname c ≠ EmptyString) cs
}.

(** A read that means the peer is gone: an error, or no byte at all. *)
Definition peer_gone (inp : RecvInput) : Prop :=
  match inp with
  | RecvError _ => True
  | RecvQueued data => data = []
  end.

(** ** A concrete operating system, to run the model on examples *)

(** Every [send] takes the whole message. *)
Definition send_all : list Event -> Z -> string -> SendRet :=
  fun _ _ message => mkSendRet (Z.of_nat (String.length message)) 0.

Definition strerror_any : Z -> string := fun _ => "error".

Definition accepted (fd : Z) : AcceptRet := mkAcceptRet fd 0 "127.0.0.1".
Definition no_accept : AcceptRet := mkAcceptRet (-1) 11 EmptyString.

(** A turn of the loop in which the listening socket 3 is readable and
    [accept] returns [fd]. *)
Definition turn_accept (fd : Z) : LoopInput :=
  mkLoopInput (SelectReady {[3]}) (accepted fd) (fun _ => RecvQueued []).

(** A turn in which socket [fd] is readable and holds [text]. *)
Definition turn_recv (fd : Z) (text : string) : LoopInput :=
  mkLoopInput (SelectReady {[fd]}) no_accept
    (fun _ => RecvQueued (String.list_ascii_of_string text)).

Definition run_example (inps : list LoopInput) : State :=
  default (setup_server 3) (run send_all strerror_any inps (setup_server 3)).

(** Socket 4 has connected and said nothing yet. *)
Definition st_anonymous : State := run_example [turn_accept 4].

(** Socket 4 has connected and registered as alice. *)
Definition st_alice : State :=
  run_example [turn_accept 4; turn_recv 4 ("alice" +:+ CRLF)].

(** Socket 4 is connected and anonymous, socket 5 is registered as bob. *)
Definition st_anonymous_bob : State :=
  run_example [turn_accept 4; turn_accept 5; turn_recv 5 ("bob" +:+ CRLF)].

(** ** Further readings of a trace, and what the loop maintains *)

(** The descriptors closed, in order. *)
Definition closes (tr : list Event) : list Z :=
  omap (fun e => match e with EvClose fd => Some fd | _ => None end) tr.

(** The descriptors shut down, in order. *)
Definition shutdowns (tr : list Event) : list Z :=
  omap (fun e => match e with EvShutdown fd => Some fd | _ => None end) tr.

(** What an operation adds to the trace: its sends, and the descriptors it
    closes and shuts down. *)
Definition adds (st st' : State) (sent_to : list (Z * string))
    (closed shut : list Z) : Prop :=
  ∃ new, trace st' = trace st ++ new ∧
         sends new = sent_to ∧ closes new = closed ∧ shutdowns new = shut.

(** A string without carriage return or line feed. *)
Definition single_line (s : string) : Prop :=
  Forall (fun c => is_terminator c = false) (String.list_ascii_of_string s).

(** What [accept] can return: -1, or a descriptor that was not open.  The
    descriptors the server watches are open, so a descriptor it gets from
    [accept] is not among them. *)
Definition fresh_accept (a : AcceptRet) (st : State) : Prop :=
  new_socket a < 0 ∨ new_socket a ∉ master_set st.

#[global] Instance fresh_accept_dec a st : Decision (fresh_accept a st).
Proof. unfold fresh_accept. apply _. Defined.


Section Contract.

Variable os_send : list Event -> Z -> string -> SendRet.
Variable strerror : Z -> string.


(** The five things [handle_client_data] can do. *)
Inductive read_outcome (s : Z) (inp : RecvInput) (st : State) : State → Prop :=
| outcome_ignored :
    read_outcome s inp st st
| outcome_gone_anonymous line :
    peer_gone inp → find_client (clients st) s = None →
    sends [line] = [] → closes [line] = [] → shutdowns [line] = [] →
    read_outcome s inp st (emit line st)
| outcome_gone c line :
    peer_gone inp → find_client (clients st) s = Some c →
    sends [line] = [] → closes [line] = [] → shutdowns [line] = [] →
    read_outcome s inp st (remove_client os_send strerror s (emit line st))
| outcome_register line :
    line ≠ EmptyString → single_line line → (String.length line ≤ 1023)%nat →
    find_client (clients st) s = None →
    read_outcome s inp st (register_client os_send strerror s line st)
| outcome_chat c line :
    line ≠ EmptyString → single_line line →
    find_client (clients st) s = Some c →
    read_outcome s inp st
      (broadcast os_send strerror s (chat_msg (nickname c) line)
         (emit (EvStdout ("📢 " +:+ nickname c +:+ ": " +:+ line +:+ NL)) st)).

End Contract.

(** A turn in which nothing is to be done: [select] was interrupted, or none
    of the watched descriptors up to the bound is readable. *)
Definition quiet_turn (inp : LoopInput) (st : State) : Prop :=
  match in_select inp with
  | SelectError e => e = EINTR
  | SelectReady ready =>
      ∀ fd, fd ∈ ready → fd ∈ master_set st → ¬ (0 <= fd <= max_fd st)
  end.

(** alice is registered on socket 4 and bob on socket 5. *)
Definition st_alice_bob : State :=
  run_example [turn_accept 4; turn_recv 4 ("alice" +:+ CRLF);
               turn_accept 5; turn_recv 5 ("bob" +:+ CRLF)].


(** * Proofs *)

(** ** Traces *)

Lemma sends_app (t1 t2 : list Event) : sends (t1 ++ t2) = sends t1 ++ sends t2.
Proof. unfold sends. apply omap_app. Qed.

Lemma sends_cons_send fd m (t : list Event) :
  sends (EvSend fd m :: t) = (fd, m) :: sends t.
Proof. reflexivity. Qed.

Lemma sends_cons_stderr line (t : list Event) : sends (EvStderr line :: t) = sends t.
Proof. reflexivity. Qed.

Lemma sends_cons_stdout line (t : list Event) : sends (EvStdout line :: t) = sends t.
Proof. reflexivity. Qed.

Section BroadcastProofs.

Variable os_send : list Event -> Z -> string -> SendRet.
Variable strerror : Z -> string.

Lemma broadcast_loop_spec targets message st :
  let st' := broadcast_loop os_send strerror targets message st in
  clients st' = clients st ∧ server_socket st' = server_socket st ∧
  master_set st' = master_set st ∧ max_fd st' = max_fd st ∧
  ∃ new, trace st' = trace st ++ new ∧
         sends new = (fun c => (socket c, message)) <$> targets ∧
         Forall harmless new.
Proof.
  revert st. induction targets as [|c rest IH]; intros st; simpl.
  - repeat split; try done. exists []. by rewrite app_nil_r.
  - set (r := os_send (trace st) (socket c) message).
    set (st1 := emit (EvSend (socket c) message) st).
    destruct ((sent r <? 0) && negb (send_errno r =? EPIPE)) eqn:Hlog.
    + destruct (IH (emit (EvStderr ("broadcast send failed: " +:+
                 strerror (send_errno r) +:+ NL)) st1))
        as (Hc & Hs & Hm & Hx & new & Ht & Hn & Hh).
      repeat split; try done.
      exists (EvSend (socket c) message :: EvStderr ("broadcast send failed: " +:+
                 strerror (send_errno r) +:+ NL) :: new).
      split; [|split].
      * rewrite Ht. simpl. by rewrite <- !app_assoc.
      * by rewrite ?sends_cons_send, ?sends_cons_stderr, Hn.
      * repeat constructor; done.
    + destruct (IH st1) as (Hc & Hs & Hm & Hx & new & Ht & Hn & Hh).
      repeat split; try done.
      exists (EvSend (socket c) message :: new).
      split; [|split].
      * rewrite Ht. simpl. by rewrite <- !app_assoc.
      * by rewrite ?sends_cons_send, ?sends_cons_stderr, Hn.
      * repeat constructor; done.
Qed.

Lemma broadcast_spec sender_fd text st :
  let st' := broadcast os_send strerror sender_fd text st in
  clients st' = clients st ∧ server_socket st' = server_socket st ∧
  master_set st' = master_set st ∧ max_fd st' = max_fd st ∧
  ∃ new, trace st' = trace st ++ new ∧
         sends new = (fun c => (socket c, text)) <$>
                       filter (fun c => socket c ≠ sender_fd) (clients st) ∧
         Forall harmless new.
Proof. apply broadcast_loop_spec. Qed.

End BroadcastProofs.

(** ** Cutting the line out of the buffer *)

Lemma cut_line_truncate message : cut_line message = truncate_at_terminator message.
Proof.
  unfold cut_line, substr0.
  induction message as [|c rest IH]; [done|].
  simpl. destruct (is_terminator c); [done|].
  destruct (find_first_of rest) as [n|]; simpl in *; by f_equal.
Qed.

Lemma truncate_split chunk :
  ∃ rest, chunk = truncate_at_terminator chunk +:+ rest ∧
    (rest = EmptyString ∨ ∃ c rest', rest = String c rest' ∧ is_terminator c = true).
Proof.
  induction chunk as [|c rest IH]; simpl.
  - exists EmptyString. by split; [|left].
  - destruct (is_terminator c) eqn:Hc.
    + exists (String c rest). split; [done|]. right. by exists c, rest.
    + destruct IH as (r & Heq & Hr). exists r. split; [|done].
      change (String c rest = String c (truncate_at_terminator rest +:+ r)).
      by f_equal.
Qed.

Lemma truncate_no_terminator chunk c :
  c ∈ String.list_ascii_of_string (truncate_at_terminator chunk) →
  is_terminator c = false.
Proof.
  induction chunk as [|a rest IH]; simpl.
  - by intros ?%elem_of_nil.
  - destruct (is_terminator a) eqn:Ha; simpl.
    + by intros ?%elem_of_nil.
    + intros [->|?]%elem_of_cons; auto.
Qed.

Lemma truncate_id message :
  (∀ c, c ∈ String.list_ascii_of_string message → is_terminator c = false) →
  truncate_at_terminator message = message.
Proof.
  induction message as [|a rest IH]; simpl; [done|].
  intros H. rewrite (H a) by (apply elem_of_cons; by left).
  f_equal. apply IH. intros c Hc. apply H. apply elem_of_cons. by right.
Qed.

Section ReadProofs.

Variable os_send : list Event -> Z -> string -> SendRet.
Variable strerror : Z -> string.

Lemma recv_bound inp buffer len :
  fst (recv inp buffer len) <= Z.of_nat len.
Proof.
  destruct inp as [e|data]; simpl; [lia|].
  rewrite length_take. lia.
Qed.

(** What [handle_client_data] does with a non-empty read. *)
Lemma handle_client_data_queued s data st :
  data ≠ [] →
  handle_client_data os_send strerror s (RecvQueued data) st =
  Some (handle_line os_send strerror s
          (cut_line (String.string_of_list_ascii (take (BUFFER_SIZE - 1) data))) st).
Proof.
  intros Hdata. unfold handle_client_data, recv.
  rewrite length_replicate.
  set (got := take (BUFFER_SIZE - 1) data).
  assert (0 < length got ≤ BUFFER_SIZE - 1)%nat as Hlen.
  { subst got. rewrite length_take. destruct data; [done|]. simpl length.
    unfold BUFFER_SIZE. lia. }
  destruct (Z.ltb_spec (Z.of_nat (length got)) 0); [lia|].
  destruct (Z.eqb_spec (Z.of_nat (length got)) 0); [lia|].
  rewrite Nat2Z.id. unfold vector_store.
  rewrite length_app, length_drop, length_replicate.
  destruct (decide _) as [_|Hoob]; [|exfalso; apply Hoob; clear -Hlen; lia].
  cbn [mbind option_bind]. rewrite take_insert_ge by lia.
  by rewrite take_app_length.
Qed.

End ReadProofs.

Lemma is_terminator_true c : is_terminator c = true ↔ c = CR ∨ c = LF.
Proof.
  unfold is_terminator. rewrite orb_true_iff, !bool_decide_eq_true. done.
Qed.

Lemma is_terminator_false c : is_terminator c = false ↔ c ≠ CR ∧ c ≠ LF.
Proof.
  unfold is_terminator. rewrite orb_false_iff, !bool_decide_eq_false. done.
Qed.

Section StreamProofs.

Variable os_send : list Event -> Z -> string -> SendRet.
Variable strerror : Z -> string.

Lemma handle_client_data_total s inp st :
  is_Some (handle_client_data os_send strerror s inp st).
Proof.
  destruct inp as [e|[|a data]].
  - unfold handle_client_data, recv. simpl. eauto.
  - unfold handle_client_data, recv. rewrite take_nil. simpl. eauto.
  - rewrite handle_client_data_queued by done. eauto.
Qed.

(** A read without terminator is one message, whole. *)
Lemma handle_client_data_unterminated s data st :
  data ≠ [] →
  (∀ c, c ∈ data → is_terminator c = false) →
  handle_client_data os_send strerror s (RecvQueued data) st =
  Some (handle_line os_send strerror s
          (String.string_of_list_ascii (take (BUFFER_SIZE - 1) data)) st).
Proof.
  intros Hne Hdata. rewrite handle_client_data_queued by done.
  rewrite cut_line_truncate, truncate_id; [done|].
  intros c. rewrite String.list_ascii_of_string_of_list_ascii.
  intros Hc. apply Hdata. by apply (subseteq_take (BUFFER_SIZE - 1)).
Qed.

Lemma handle_reads_chunks fuel s data st :
  (∀ c, c ∈ data → is_terminator c = false) →
  handle_reads os_send strerror s (queue_reads fuel data) st =
  Some (fold_left (fun st line => handle_line os_send strerror s line st)
          (chunks fuel (BUFFER_SIZE - 1) data) st).
Proof.
  revert data st. induction fuel as [|fuel IH]; intros data st Hdata; [done|].
  destruct data as [|a data]; [done|].
  cbn [queue_reads chunks handle_reads fold_left recv_rest].
  rewrite handle_client_data_unterminated by done.
  cbn [mbind option_bind]. apply IH.
  intros c Hc. apply Hdata. by apply (subseteq_drop (BUFFER_SIZE - 1)).
Qed.

Lemma queue_reads_length fuel n data :
  n = (BUFFER_SIZE - 1)%nat →
  length (queue_reads fuel data) = length (chunks fuel n data).
Proof.
  intros ->. revert data. induction fuel as [|fuel IH]; intros data; [done|].
  destruct data as [|a data]; [done|].
  cbn [queue_reads chunks recv_rest length]. by rewrite IH.
Qed.

End StreamProofs.

Lemma chunks_concat fuel n data :
  (0 < n)%nat → (length data ≤ fuel)%nat →
  mjoin (String.list_ascii_of_string <$> chunks fuel n data) = data.
Proof.
  intros Hn. revert data. induction fuel as [|fuel IH]; intros data Hlen.
  - destruct data; [done|simpl in Hlen; lia].
  - destruct data as [|a data]; [done|].
    cbn [chunks]. rewrite fmap_cons. cbn [mjoin list_join].
    rewrite String.list_ascii_of_string_of_list_ascii, IH.
    + apply take_drop.
    + rewrite length_drop. simpl in *. lia.
Qed.

Lemma string_of_list_ascii_length (l : list ascii) :
  String.length (String.string_of_list_ascii l) = length l.
Proof. induction l as [|a l IH]; simpl; by rewrite ?IH. Qed.

Lemma chunks_sizes fuel n data :
  (0 < n)%nat →
  Forall (fun c => 0 < String.length c ≤ n)%nat (chunks fuel n data).
Proof.
  intros Hn. revert data. induction fuel as [|fuel IH]; intros data; [constructor|].
  destruct data as [|a data]; [constructor|].
  cbn [chunks]. constructor; [|apply IH].
  rewrite string_of_list_ascii_length, length_take. simpl length. lia.
Qed.

Lemma chunks_at_least_two fuel n data :
  (0 < n < length data)%nat → (length data ≤ fuel)%nat →
  (2 ≤ length (chunks fuel n data))%nat.
Proof.
  intros Hn Hfuel.
  destruct fuel as [|[|fuel]]; [lia| |].
  - destruct data as [|a [|b data]]; simpl in *; lia.
  - destruct data as [|a data]; [simpl in *; lia|].
    cbn [chunks]. destruct (drop n (a :: data)) as [|b rest] eqn:Hdrop.
    + apply (f_equal length) in Hdrop. rewrite length_drop in Hdrop.
      simpl in *. lia.
    + simpl. lia.
Qed.

(** ** The registry operations, one by one *)

Lemma nickname_exists_true cs nick :
  nickname_exists cs nick = true ↔ ∃ c, c ∈ cs ∧ nickname c = nick.
Proof. unfold nickname_exists. by rewrite bool_decide_eq_true, Exists_exists. Qed.

Lemma nickname_exists_false cs nick :
  nickname_exists cs nick = false ↔ nick ∉ nickname <$> cs.
Proof.
  unfold nickname_exists. rewrite bool_decide_eq_false, Exists_exists.
  rewrite list_elem_of_fmap. split.
  - intros H (c & -> & Hc). apply H. eauto.
  - intros H (c & Hc & <-). apply H. eauto.
Qed.

Lemma find_client_Some cs s c :
  find_client cs s = Some c → c ∈ cs ∧ socket c = s.
Proof.
  induction cs as [|a cs IH]; simpl; [done|].
  destruct (decide (socket a = s)).
  - intros Heq. inversion Heq; subst. split; [apply elem_of_cons; by left|done].
  - intros [Hin Hs]%IH. split; [apply elem_of_cons; by right|done].
Qed.

Lemma find_client_None cs s :
  find_client cs s = None ↔ ∀ c, c ∈ cs → socket c ≠ s.
Proof.
  induction cs as [|a cs IH]; simpl.
  - split; [intros _ c Hc; by apply elem_of_nil in Hc|done].
  - destruct (decide (socket a = s)) as [Heq|Hne].
    + split; [done|]. intros H. destruct (H a); [apply elem_of_cons; by left|done].
    + rewrite IH. split.
      * intros H c [->|Hc]%elem_of_cons; auto.
      * intros H c Hc. apply H, elem_of_cons. by right.
Qed.

Lemma find_client_removed cs s :
  find_client (filter (fun c => socket c ≠ s) cs) s = None.
Proof.
  apply find_client_None. by intros c [? _]%list_elem_of_filter.
Qed.

Lemma filter_absent cs s :
  find_client cs s = None → filter (fun c => socket c ≠ s) cs = cs.
Proof.
  rewrite find_client_None. induction cs as [|a cs IH]; intros H; [done|].
  rewrite filter_cons_True by (apply H, elem_of_cons; by left).
  f_equal. apply IH. intros c Hc. apply H, elem_of_cons. by right.
Qed.

Section RegistryProofs.

Variable os_send : list Event -> Z -> string -> SendRet.
Variable strerror : Z -> string.

Local Abbreviation broadcast := (broadcast os_send strerror).
Local Abbreviation send_welcome := (send_welcome os_send strerror).
Local Abbreviation register_client := (register_client os_send strerror).
Local Abbreviation remove_client := (remove_client os_send strerror).
Local Abbreviation handle_new_connection := (handle_new_connection os_send strerror).
Local Abbreviation handle_line := (handle_line os_send strerror).
Local Abbreviation handle_client_data := (handle_client_data os_send strerror).

Lemma broadcast_frame sender_fd text st :
  let st' := broadcast sender_fd text st in
  clients st' = clients st ∧ server_socket st' = server_socket st ∧
  master_set st' = master_set st ∧ max_fd st' = max_fd st.
Proof.
  destruct (broadcast_spec os_send strerror sender_fd text st)
    as (? & ? & ? & ? & _). done.
Qed.

Lemma send_welcome_spec s st :
  let st' := send_welcome s st in
  clients st' = clients st ∧ server_socket st' = server_socket st ∧
  master_set st' = master_set st ∧ max_fd st' = max_fd st ∧
  ∃ new, trace st' = trace st ++ EvSend s (welcome_msg (clients st) s) :: new ∧
         sends new = [] ∧ Forall harmless new.
Proof.
  unfold send_welcome, sys_send.
  destruct (_ && _); simpl; repeat split; try done.
  - eexists [_]. split; [by rewrite <- app_assoc|]. split; [done|].
    by repeat constructor.
  - by exists [].
Qed.

Lemma register_client_taken s nick st :
  nickname_exists (clients st) nick = true →
  register_client s nick st = emit (EvSend s taken_msg) st.
Proof. unfold register_client. by intros ->. Qed.

Lemma register_client_fresh s nick st :
  nickname_exists (clients st) nick = false →
  let st' := register_client s nick st in
  clients st' = clients st ++ [mkClient s nick] ∧
  server_socket st' = server_socket st ∧
  master_set st' = master_set st ∧ max_fd st' = max_fd st ∧
  ∃ new, trace st' = trace st ++
           EvStdout ("👤 Registered: " +:+ nick +:+ NL) ::
           EvSend s (welcome_msg (clients st ++ [mkClient s nick]) s) :: new ∧
         sends new = (fun c => (socket c, join_msg nick)) <$>
                       filter (fun c => socket c ≠ s) (clients st) ∧
         Forall harmless new.
Proof.
  intros Hfresh. unfold register_client. rewrite Hfresh.
  set (st1 := emit _ (set_clients _ st)).
  destruct (send_welcome_spec s st1) as (Hc & Hs & Hm & Hx & new1 & Ht & Hn1 & Hh1).
  destruct (broadcast_spec os_send strerror s (join_msg nick) (send_welcome s st1))
    as (Hc' & Hs' & Hm' & Hx' & new2 & Ht' & Hn2 & Hh2).
  cbv zeta. rewrite Hc', Hs', Hm', Hx', Hc, Hs, Hm, Hx.
  repeat split; try done.
  exists (new1 ++ new2). split; [|split].
  - rewrite Ht', Ht. subst st1. simpl. by rewrite <- !app_assoc.
  - rewrite sends_app, Hn1, Hn2, Hc. subst st1. simpl.
    rewrite filter_app, filter_cons_False, filter_nil, app_nil_r by (simpl; auto).
    done.
  - by apply Forall_app.
Qed.

Lemma remove_client_absent s st :
  find_client (clients st) s = None → remove_client s st = st.
Proof. unfold remove_client. by intros ->. Qed.

Lemma remove_client_present s c st :
  find_client (clients st) s = Some c →
  let st' := remove_client s st in
  let name := if empty (nickname c) then "unknown" else nickname c in
  clients st' = filter (fun c => socket c ≠ s) (clients st) ∧
  server_socket st' = server_socket st ∧
  master_set st' = master_set st ∖ {[s]} ∧
  max_fd st' = (if decide (s = max_fd st)
                then rescan_max (clients st') (server_socket st)
                else max_fd st) ∧
  ∃ new, trace st' = trace st ++
           EvStdout ("❌ " +:+ name +:+ " disconnected" +:+ NL) :: new ++
           [EvShutdown s; EvClose s] ∧
         sends new = (fun c => (socket c, left_msg name)) <$>
                       filter (fun c => socket c ≠ s) (clients st) ∧
         Forall harmless new.
Proof.
  intros Hfind. unfold remove_client. rewrite Hfind.
  set (name := if empty (nickname c) then "unknown" else nickname c).
  set (st1 := emit _ st).
  destruct (broadcast_spec os_send strerror s (left_msg name) st1)
    as (Hc & Hs & Hm & Hx & new & Ht & Hn & Hh).
  cbv zeta. simpl. rewrite Hc, Hs, Hm, Hx. subst st1. simpl.
  assert (∃ new0, trace (broadcast s (left_msg name)
                     (emit (EvStdout ("❌ " +:+ name +:+ " disconnected" +:+ NL)) st))
                  ++ [EvShutdown s] ++ [EvClose s] =
            trace st ++ EvStdout ("❌ " +:+ name +:+ " disconnected" +:+ NL) ::
              new0 ++ [EvShutdown s; EvClose s] ∧
           sends new0 = (fun c => (socket c, left_msg name)) <$>
                       filter (fun c => socket c ≠ s) (clients st) ∧
           Forall harmless new0) as Htr.
  { exists new. rewrite Ht. simpl. rewrite <- !app_assoc. done. }
  destruct (decide (s = max_fd st)); simpl; rewrite ?Hc, ?Hs, ?Hm, ?Hx; simpl;
    repeat split; try done; by rewrite <- app_assoc.
Qed.

Lemma handle_new_connection_clients a st :
  clients (handle_new_connection a st) = clients st ∧
  server_socket (handle_new_connection a st) = server_socket st.
Proof.
  unfold handle_new_connection, sys_send.
  destruct (new_socket a <? 0); [done|].
  destruct (max_fd _ <? _); simpl; destruct (sent _ <? 0); done.
Qed.

End RegistryProofs.

(** ** Nicknames stay unique *)

Lemma NoDup_fmap_filter {A B} (f : A → B) (P : A → Prop) `{∀ x, Decision (P x)} l :
  NoDup (f <$> l) → NoDup (f <$> filter P l).
Proof.
  intros Hl. eapply sublist_NoDup; [exact Hl|].
  apply fmap_sublist, sublist_filter.
Qed.

Lemma NoDup_fmap_snoc {A B} (f : A → B) l x :
  NoDup (f <$> l) → f x ∉ f <$> l → NoDup (f <$> (l ++ [x])).
Proof.
  intros Hl Hx. rewrite fmap_app. apply NoDup_app. split; [done|]. split.
  - intros y Hy Hin. apply list_elem_of_singleton in Hin. by subst.
  - apply NoDup_singleton.
Qed.

Section InvariantProofs.

Variable os_send : list Event -> Z -> string -> SendRet.
Variable strerror : Z -> string.

Local Abbreviation register_client := (register_client os_send strerror).
Local Abbreviation remove_client := (remove_client os_send strerror).
Local Abbreviation broadcast := (broadcast os_send strerror).
Local Abbreviation handle_line := (handle_line os_send strerror).
Local Abbreviation handle_client_data := (handle_client_data os_send strerror).
Local Abbreviation handle_new_connection := (handle_new_connection os_send strerror).
Local Abbreviation reachable := (reachable os_send strerror).

Lemma register_client_clients s nick st :
  clients (register_client s nick st) =
  if nickname_exists (clients st) nick then clients st
  else clients st ++ [mkClient s nick].
Proof.
  destruct (nickname_exists (clients st) nick) eqn:Hex.
  - by rewrite register_client_taken.
  - by destruct (register_client_fresh os_send strerror s nick st Hex) as [-> _].
Qed.

Lemma remove_client_clients s st :
  clients (remove_client s st) = filter (fun c => socket c ≠ s) (clients st).
Proof.
  destruct (find_client (clients st) s) as [c|] eqn:Hfind.
  - by destruct (remove_client_present os_send strerror s c st Hfind) as [-> _].
  - rewrite remove_client_absent by done. by rewrite filter_absent.
Qed.

Lemma register_client_unique s nick st :
  NoDup (nickname <$> clients st) →
  NoDup (nickname <$> clients (register_client s nick st)).
Proof.
  intros Hnd. rewrite register_client_clients.
  destruct (nickname_exists (clients st) nick) eqn:Hex; [done|].
  apply NoDup_fmap_snoc; [done|]. by apply nickname_exists_false.
Qed.

Lemma remove_client_unique s st :
  NoDup (nickname <$> clients st) →
  NoDup (nickname <$> clients (remove_client s st)).
Proof. rewrite remove_client_clients. apply NoDup_fmap_filter. Qed.

Lemma apply_op_unique st op :
  NoDup (nickname <$> clients st) →
  NoDup (nickname <$> clients (apply_op os_send strerror st op)).
Proof.
  destruct op as [s nick|s text|s]; simpl.
  - apply register_client_unique.
  - by destruct (broadcast_frame os_send strerror s text st) as [-> _].
  - apply remove_client_unique.
Qed.

Lemma apply_ops_unique ops st :
  NoDup (nickname <$> clients st) →
  NoDup (nickname <$> clients (apply_ops os_send strerror ops st)).
Proof.
  revert st. induction ops as [|op ops IH]; intros st Hst; [done|].
  simpl. apply IH. by apply apply_op_unique.
Qed.

(** ** The invariant of the registry *)

Lemma registry_inv_register s nick st :
  registry_inv (clients st) → find_client (clients st) s = None →
  nick ≠ EmptyString →
  registry_inv (clients (register_client s nick st)).
Proof.
  intros [Hn Hs Hne] Hfind Hnick. rewrite register_client_clients.
  destruct (nickname_exists (clients st) nick) eqn:Hex; [done|].
  split.
  - apply NoDup_fmap_snoc; [done|]. by apply nickname_exists_false.
  - apply NoDup_fmap_snoc; [done|]. simpl.
    intros (c & Heq & Hc)%list_elem_of_fmap.
    eapply find_client_None in Hfind; eauto.
  - apply Forall_app. split; [done|]. by repeat constructor.
Qed.

Lemma registry_inv_remove s st :
  registry_inv (clients st) → registry_inv (clients (remove_client s st)).
Proof.
  intros [Hn Hs Hne]. rewrite remove_client_clients. split.
  - by apply NoDup_fmap_filter.
  - by apply NoDup_fmap_filter.
  - apply Forall_forall. intros c [_ Hc]%list_elem_of_filter.
    by eapply Forall_forall in Hne.
Qed.

Lemma handle_line_clients s line st :
  clients (handle_line s line st) =
  if empty line then clients st
  else match find_client (clients st) s with
       | None => clients (register_client s line st)
       | Some _ => clients st
       end.
Proof.
  unfold handle_line. destruct (empty line); [done|].
  destruct (find_client (clients st) s) as [c|]; [|done].
  by destruct (broadcast_frame os_send strerror s (chat_msg (nickname c) line)
    (emit (EvStdout ("📢 " +:+ nickname c +:+ ": " +:+ line +:+ NL)) st)) as [-> _].
Qed.

Lemma registry_inv_line s line st :
  registry_inv (clients st) → registry_inv (clients (handle_line s line st)).
Proof.
  intros Hinv. rewrite handle_line_clients.
  destruct (empty line) eqn:Hline; [done|].
  destruct (find_client (clients st) s) eqn:Hfind; [done|].
  apply registry_inv_register; [done..|].
  unfold empty in Hline. by apply bool_decide_eq_false in Hline.
Qed.

Lemma registry_inv_data s inp st st' :
  registry_inv (clients st) → handle_client_data s inp st = Some st' →
  registry_inv (clients st').
Proof.
  intros Hinv. destruct inp as [e|[|a data]].
  - unfold handle_client_data, recv. simpl. intros [= <-].
    apply registry_inv_remove. by destruct (_ || _).
  - unfold handle_client_data, recv. rewrite take_nil. simpl. intros [= <-].
    by apply registry_inv_remove.
  - rewrite handle_client_data_queued by done. intros [= <-].
    by apply registry_inv_line.
Qed.

Lemma reachable_inv st : reachable st → registry_inv (clients st).
Proof.
  induction 1 as [fd Hfd|st a _ IH|st s inp st' _ IH Hs Hdata|st e _ IH].
  - split; simpl; constructor.
  - by destruct (handle_new_connection_clients os_send strerror a st) as [-> _].
  - by eapply registry_inv_data.
  - done.
Qed.

End InvariantProofs.

(** ** The welcome message *)

Lemma append_cons x (a b : string) : String x a +:+ b = String x (a +:+ b).
Proof. reflexivity. Qed.

Lemma append_assoc (a b c : string) : (a +:+ b) +:+ c = a +:+ b +:+ c.
Proof. induction a as [|x a IH]; [done|]. by rewrite !append_cons, IH. Qed.

Lemma append_empty_inv (a b : string) : a +:+ b = EmptyString → a = EmptyString.
Proof. by destruct a. Qed.

Lemma concat_merge_head sep (a b : string) rest :
  String.concat sep ((a +:+ sep +:+ b) :: rest) =
  a +:+ sep +:+ String.concat sep (b :: rest).
Proof.
  destruct rest as [|r rest]; [done|].
  cbn [String.concat]. by rewrite !append_assoc.
Qed.

Lemma fold_join_step names acc :
  acc ≠ EmptyString → Forall (fun n => n ≠ EmptyString) names →
  fold_left join_step names acc = comma_join (acc :: names).
Proof.
  revert acc. induction names as [|n names IH]; intros acc Hacc Hnames; [done|].
  inversion Hnames as [|? ? Hn Hrest]; subst.
  cbn [fold_left]. unfold join_step at 2, empty.
  rewrite bool_decide_eq_false_2 by done.
  rewrite IH; [|by intros ?%append_empty_inv|done].
  unfold comma_join. by rewrite concat_merge_head.
Qed.

Lemma fold_join_comma names :
  Forall (fun n => n ≠ EmptyString) names →
  fold_left join_step names EmptyString = comma_join names.
Proof.
  destruct names as [|n names]; [done|].
  intros Hnames. inversion Hnames; subst.
  cbn [fold_left]. by apply fold_join_step.
Qed.

Lemma filter_named_others cs s :
  filter (fun c => socket c ≠ s ∧ nickname c ≠ EmptyString) cs = named_others cs s.
Proof.
  unfold named_others. rewrite list_filter_filter.
  apply list_filter_iff. tauto.
Qed.

Lemma named_others_snoc cs s nick :
  named_others (cs ++ [mkClient s nick]) s = named_others cs s.
Proof.
  unfold named_others.
  rewrite filter_app, (filter_cons_False _ (mkClient s nick)) by (simpl; auto).
  by rewrite filter_nil, app_nil_r.
Qed.

Lemma online_users_comma cs s :
  online_users cs s = comma_join (nickname <$> named_others cs s).
Proof.
  unfold online_users. rewrite filter_named_others.
  apply fold_join_comma. apply Forall_fmap, Forall_forall.
  by intros c [Hc _]%list_elem_of_filter.
Qed.

Lemma welcome_msg_joining cs s nick :
  let others := named_others cs s in
  welcome_msg (cs ++ [mkClient s nick]) s =
  if decide (others = []) then alone_msg
  else online_msg (length others) (comma_join (nickname <$> others)).
Proof.
  intros others. unfold welcome_msg, online_count.
  rewrite online_users_comma, filter_named_others, named_others_snoc.
  fold others. destruct others; done.
Qed.

(** The decimal form of a positive number starts with a digit other than 0. *)
Lemma pretty_N_go_head (x : N) s :
  (0 < x)%N → ∃ d rest, pretty_N_go x s = String d rest ∧ d ≠ "0"%char.
Proof.
  revert s. induction (N.lt_wf_0 x) as [x _ IH]; intros s Hx.
  rewrite pretty_N_go_step by done.
  destruct (decide (x `div` 10 = 0)%N) as [Hsmall|Hbig].
  - rewrite Hsmall, pretty_N_go_0. eexists _, _. split; [done|].
    apply N.div_small_iff in Hsmall; [|done].
    rewrite N.mod_small by done.
    assert (x = 1 ∨ x = 2 ∨ x = 3 ∨ x = 4 ∨ x = 5 ∨ x = 6 ∨ x = 7 ∨ x = 8 ∨ x = 9)%N
      as Hcases by lia.
    repeat (destruct Hcases as [->|Hcases]; [done|]). by subst.
  - apply IH; [apply N.div_lt; lia|].
    destruct (x `div` 10)%N; [done|lia].
Qed.

Lemma online_msg_not_zero count users users' :
  (0 < count)%nat → online_msg count users ≠ online_msg 0 users'.
Proof.
  intros Hcount. unfold online_msg, pretty, pretty_nat, pretty, pretty_N.
  rewrite decide_False by lia.
  destruct (pretty_N_go_head (N.of_nat count) EmptyString) as (d & rest & -> & Hd); [lia|].
  intros Heq. inversion Heq. done.
Qed.

Lemma alone_msg_not_zero users : alone_msg ≠ online_msg 0 users.
Proof. intros Heq. inversion Heq. Qed.

(** ** The loop stays within the reachable states *)

Section LoopProofs.

Variable os_send : list Event -> Z -> string -> SendRet.
Variable strerror : Z -> string.

Local Abbreviation reachable := (reachable os_send strerror).

Lemma ready_loop_reachable fds read_fds inp st st' :
  reachable st →
  ready_loop os_send strerror fds read_fds inp st = Some st' →
  reachable st'.
Proof.
  revert st. induction fds as [|fd fds IH]; intros st Hst; simpl.
  - by intros [= <-].
  - destruct (decide (fd ∈ read_fds)); [|by apply IH].
    destruct (decide (fd = server_socket st)) as [_|Hne]; simpl.
    + apply IH. by constructor.
    + destruct (handle_client_data os_send strerror fd (in_recv inp fd) st)
        as [st1|] eqn:Hdata; [|done].
      simpl. apply IH. by eapply reach_data.
Qed.

Lemma run_iteration_reachable inp st st' :
  reachable st → run_iteration os_send strerror inp st = Some st' → reachable st'.
Proof.
  intros Hst. unfold run_iteration. destruct (in_select inp) as [e|ready].
  - destruct (e =? EINTR); intros [= <-]; [done|]. by constructor.
  - by apply ready_loop_reachable.
Qed.

Lemma run_reachable inps st st' :
  reachable st → run os_send strerror inps st = Some st' → reachable st'.
Proof.
  revert st. induction inps as [|inp inps IH]; intros st Hst; simpl.
  - by intros [= <-].
  - destruct (run_iteration os_send strerror inp st) as [st1|] eqn:Hit; [|done].
    simpl. apply IH. by eapply run_iteration_reachable.
Qed.

End LoopProofs.

Lemma run_example_reachable inps st :
  run send_all strerror_any inps (setup_server 3) = Some st →
  reachable send_all strerror_any st.
Proof. apply run_reachable. by constructor. Qed.

Lemma rescan_max_bound cs start bound :
  start <= bound → Forall (fun c => socket c <= bound) cs →
  rescan_max cs start <= bound.
Proof.
  unfold rescan_max. revert start.
  induction cs as [|c cs IH]; intros start Hstart Hcs; [done|].
  inversion Hcs; subst. simpl. apply IH; [|done].
  destruct (Z.ltb_spec start (socket c)); lia.
Qed.

(** * The claims *)

Lemma find_client_snoc cs s nick :
  find_client cs s = None →
  find_client (cs ++ [mkClient s nick]) s = Some (mkClient s nick).
Proof.
  induction cs as [|a cs IH]; simpl.
  - by rewrite decide_True.
  - destruct (decide (socket a = s)); [done|]. apply IH.
Qed.

Section Claims.

Variable os_send : list Event -> Z -> string -> SendRet.
Variable strerror : Z -> string.

Local Abbreviation broadcast := (broadcast os_send strerror).
Local Abbreviation register_client := (register_client os_send strerror).
Local Abbreviation remove_client := (remove_client os_send strerror).
Local Abbreviation handle_line := (handle_line os_send strerror).
Local Abbreviation handle_client_data := (handle_client_data os_send strerror).
Local Abbreviation reachable := (reachable os_send strerror).

(** C1 (the code does otherwise): when the peer of a connection that has no
    registry entry is gone, [handle_client_data] calls [remove_client], which
    finds no client and does nothing: only a log line is printed, the socket
    is neither shut down nor closed and it stays in the watched set. *)
Theorem disconnect_anonymous_not_closed s inp st :
  find_client (clients st) s = None → peer_gone inp →
  remove_client s st = st ∧
  ∃ st', handle_client_data s inp st = Some st' ∧
         clients st' = clients st ∧ master_set st' = master_set st ∧
         max_fd st' = max_fd st ∧
         ∃ line, trace st' = trace st ++ [line] ∧ harmless line.
Proof.
  intros Hfind Hgone. split; [by apply remove_client_absent|].
  destruct inp as [e|data]; simpl in Hgone; subst;
    unfold handle_client_data, recv; rewrite ?take_nil; simpl.
  - destruct (_ || _); eexists; (split; [done|]);
      rewrite remove_client_absent by done; simpl;
      (repeat split; try done); by eexists.
  - eexists. split; [done|]. rewrite remove_client_absent by done. simpl.
    repeat split; try done. by eexists.
Qed.

(** C2: after any sequence of registrations, broadcasts and disconnections
    from the start, two entries of the registry with the same nickname are
    the same entry; and registering under a nickname that an entry holds only
    sends the rejection and leaves the state as it was. *)
Theorem nicknames_stay_unique listen_fd ops :
  let st := apply_ops os_send strerror ops (setup_server listen_fd) in
  (∀ i j c1 c2,
     clients st !! i = Some c1 → clients st !! j = Some c2 →
     nickname c1 = nickname c2 → i = j) ∧
  (∀ s c, c ∈ clients st →
     register_client s (nickname c) st = emit (EvSend s taken_msg) st ∧
     clients (register_client s (nickname c) st) = clients st).
Proof.
  intros st. split.
  - assert (NoDup (nickname <$> clients st)) as Hnd.
    { apply apply_ops_unique. constructor. }
    intros i j c1 c2 Hi Hj Heq.
    eapply NoDup_lookup; [exact Hnd| |].
    + rewrite list_lookup_fmap, Hi. done.
    + rewrite list_lookup_fmap, Hj. simpl. by rewrite Heq.
  - intros s c Hc.
    assert (nickname_exists (clients st) (nickname c) = true) as Hex.
    { apply nickname_exists_true. eauto. }
    rewrite register_client_taken by done. done.
Qed.

(** C3 (the code does otherwise): when the registered client on the largest
    watched descriptor disconnects, the bound is recomputed from the listening
    socket and the registry only; a watched descriptor [fd] of a connection
    that has not registered yet, larger than those, is then above the bound,
    and [select] no longer reports it. *)
Theorem rescan_misses_anonymous s fd c st :
  find_client (clients st) s = Some c → s = max_fd st →
  fd ∈ master_set st → fd ≠ s → server_socket st < fd →
  Forall (fun c => socket c ≠ s → socket c < fd) (clients st) →
  let st' := remove_client s st in
  fd ∈ master_set st' ∧ max_fd st' < fd ∧
  ∀ ready, fd ∉ select (max_fd st' + 1) (master_set st') ready.
Proof.
  intros Hfind Hmax Hfd Hne Hsrv Hcs st'.
  destruct (remove_client_present os_send strerror s c st Hfind)
    as (Hc & Hs & Hm & Hx & _).
  fold st' in Hc, Hs, Hm, Hx.
  assert (max_fd st' < fd) as Hlt.
  { rewrite Hx, decide_True by done.
    cut (rescan_max (clients st') (server_socket st) <= fd - 1); [lia|].
    apply rescan_max_bound; [lia|]. rewrite Hc.
    apply Forall_forall. intros c' [Hc1 Hc2]%list_elem_of_filter.
    eapply Forall_forall in Hcs; [|done]. lia. }
  split; [|split; [done|]].
  - rewrite Hm. apply elem_of_difference. split; [done|].
    by intros ?%elem_of_singleton.
  - intros ready. unfold select. rewrite elem_of_filter. lia.
Qed.

(** C4: [broadcast] sends the text, unchanged, to the clients whose socket is
    not the sender's, in the order of the registry and to no one else; what
    the sends return changes neither that nor the registry, the watched set
    or its bound, and nothing is closed. *)
Theorem broadcast_delivery sender_fd text st :
  let st' := broadcast sender_fd text st in
  let recipients := filter (fun c => socket c ≠ sender_fd) (clients st) in
  clients st' = clients st ∧ server_socket st' = server_socket st ∧
  master_set st' = master_set st ∧ max_fd st' = max_fd st ∧
  ∃ new, trace st' = trace st ++ new ∧
         sends new = (fun c => (socket c, text)) <$> recipients ∧
         (∀ m, (sender_fd, m) ∉ sends new) ∧
         Forall harmless new.
Proof.
  intros st' recipients.
  destruct (broadcast_loop_spec os_send strerror recipients text st)
    as (Hc & Hs & Hm & Hx & new & Ht & Hn & Hh).
  repeat split; try done.
  exists new. repeat split; try done.
  intros m. rewrite Hn. intros Hin.
  apply list_elem_of_fmap in Hin as (c & Heq & Hc').
  apply list_elem_of_filter in Hc' as [Hne _].
  inversion Heq. congruence.
Qed.

(** C5: a read of at least one byte is cut at its first carriage return or
    line feed: the chunk is the line followed by a rest that is empty or
    starts with a terminator, and the line holds no terminator.  An empty
    line changes nothing; any other line is a nickname claim when the
    connection has no registry entry and a chat message otherwise. *)
Theorem read_dispatches_truncated_line s data st :
  data ≠ [] →
  let chunk := String.string_of_list_ascii (take (BUFFER_SIZE - 1) data) in
  let line := truncate_at_terminator chunk in
  (∃ rest, chunk = line +:+ rest ∧
     (rest = EmptyString ∨ ∃ c rest', rest = String c rest' ∧ (c = CR ∨ c = LF))) ∧
  (∀ c, c ∈ String.list_ascii_of_string line → c ≠ CR ∧ c ≠ LF) ∧
  handle_client_data s (RecvQueued data) st =
    Some (if decide (line = EmptyString) then st
          else match find_client (clients st) s with
               | None => register_client s line st
               | Some client =>
                   broadcast s (chat_msg (nickname client) line)
                     (emit (EvStdout ("📢 " +:+ nickname client +:+ ": " +:+
                                      line +:+ NL)) st)
               end).
Proof.
  intros Hdata chunk line. split; [|split].
  - destruct (truncate_split chunk) as (rest & Heq & Hrest).
    exists rest. split; [done|].
    destruct Hrest as [->|(c & rest' & -> & Hc)]; [by left|right].
    exists c, rest'. split; [done|]. by apply is_terminator_true.
  - intros c Hc. apply is_terminator_false. by eapply truncate_no_terminator.
  - rewrite handle_client_data_queued by done.
    rewrite cut_line_truncate. fold chunk line.
    f_equal. unfold handle_line, empty.
    case_bool_decide; case_decide; done.
Qed.

(** C6: on a successful registration the first thing sent to the joining
    connection is the welcome message, and nothing else is sent to it.  With
    [others] the registry entries of other connections that have a nickname,
    in insertion order, the message is the alone message when there is none,
    and otherwise gives their number and their nicknames joined by commas; it
    is never a message for 0 users. *)
Theorem welcome_on_registration s nick st :
  nickname_exists (clients st) nick = false →
  let st' := register_client s nick st in
  let others := named_others (clients st) s in
  let message :=
    if decide (others = []) then alone_msg
    else online_msg (length others) (comma_join (nickname <$> others)) in
  (∃ new, trace st' = trace st ++
            EvStdout ("👤 Registered: " +:+ nick +:+ NL) :: EvSend s message :: new ∧
          ∀ m, (s, m) ∉ sends new) ∧
  (∀ users, message ≠ online_msg 0 users).
Proof.
  intros Hfresh st' others message.
  destruct (register_client_fresh os_send strerror s nick st Hfresh)
    as (_ & _ & _ & _ & new & Ht & Hn & _).
  rewrite welcome_msg_joining in Ht. fold others message st' in Ht.
  assert (∀ users, message ≠ online_msg 0 users) as Hzero.
  { intros users. subst message. destruct (decide (others = [])) as [|Hne].
    - apply alone_msg_not_zero.
    - apply online_msg_not_zero. destruct others; [done|simpl; lia]. }
  split; [|done].
  exists new. split; [done|]. intros m. rewrite Hn.
  intros (c & Heq & Hc)%list_elem_of_fmap.
  apply list_elem_of_filter in Hc as [Hc _]. inversion Heq. congruence.
Qed.

(** C7: a connection claims a nickname.  If a client other than the
    connection holds that nickname, only the rejection is sent to the
    connection: registry, watched set and bound are as before, and a
    connection without entry still has none.  Otherwise, for a connection
    without entry (the only ones [handle_client_data] registers), the entry
    made of the connection and the nickname is added at the end of the
    registry. *)
Theorem register_collision_rejected s nick st :
  let st' := register_client s nick st in
  (collides (clients st) s nick →
     st' = emit (EvSend s taken_msg) st ∧
     clients st' = clients st ∧ master_set st' = master_set st ∧
     max_fd st' = max_fd st ∧
     find_client (clients st') s = find_client (clients st) s) ∧
  (find_client (clients st) s = None → ¬ collides (clients st) s nick →
     clients st' = clients st ++ [mkClient s nick] ∧
     master_set st' = master_set st ∧ max_fd st' = max_fd st ∧
     find_client (clients st') s = Some (mkClient s nick)).
Proof.
  intros st'. split.
  - intros (c & Hc & _ & Hnick).
    assert (nickname_exists (clients st) nick = true) as Hex.
    { apply nickname_exists_true. eauto. }
    subst st'. rewrite register_client_taken by done. done.
  - intros Hfind Hfree.
    assert (nickname_exists (clients st) nick = false) as Hex.
    { apply not_true_is_false. intros (c & Hc & Hnick)%nickname_exists_true.
      apply Hfree. exists c. repeat split; try done.
      eapply find_client_None in Hfind; eauto. }
    destruct (register_client_fresh os_send strerror s nick st Hex)
      as (Hc & _ & Hm & Hx & _).
    fold st' in Hc, Hm, Hx. rewrite Hc. repeat split; try done.
    by apply find_client_snoc.
Qed.

(** C8: in a reachable state, once the client that holds a nickname has been
    removed, nobody holds that nickname, and registering any connection under
    it adds the entry and sends the welcome, not the rejection. *)
Theorem nickname_released st s c s' :
  reachable st → find_client (clients st) s = Some c →
  let st1 := remove_client s st in
  let st2 := register_client s' (nickname c) st1 in
  nickname_exists (clients st1) (nickname c) = false ∧
  clients st2 = clients st1 ++ [mkClient s' (nickname c)] ∧
  ∃ new, trace st2 = trace st1 ++
           EvStdout ("👤 Registered: " +:+ nickname c +:+ NL) ::
           EvSend s' (welcome_msg (clients st2) s') :: new ∧
         (s', taken_msg) ∉ sends new.
Proof.
  intros Hreach Hfind st1 st2.
  apply reachable_inv in Hreach as [Hnd _ _].
  assert (nickname_exists (clients st1) (nickname c) = false) as Hex.
  { apply not_true_is_false. intros (c' & Hc' & Hnick)%nickname_exists_true.
    subst st1. rewrite remove_client_clients in Hc'.
    apply list_elem_of_filter in Hc' as [Hne Hc'].
    apply find_client_Some in Hfind as [Hc Hs].
    apply list_elem_of_lookup in Hc as [i Hi], Hc' as [j Hj].
    assert (i = j) as ->.
    { eapply NoDup_lookup; [exact Hnd| |].
      - by rewrite list_lookup_fmap, Hi.
      - rewrite list_lookup_fmap, Hj. simpl. by rewrite Hnick. }
    congruence. }
  destruct (register_client_fresh os_send strerror s' (nickname c) st1 Hex)
    as (Hc & _ & _ & _ & new & Ht & Hn & _).
  fold st2 in Hc, Ht. split; [done|]. split; [done|].
  exists new. rewrite Hc. split; [done|]. rewrite Hn.
  intros (c' & Heq & Hc')%list_elem_of_fmap.
  apply list_elem_of_filter in Hc' as [Hne _]. apply Hne. by inversion Heq.
Qed.

(** C9: in a reachable state every registry entry has a non-empty nickname.
    An empty line is dropped before anything is looked up or registered, and
    the leave notice of a client that is found carries its nickname, not the
    placeholder. *)
Theorem registry_entries_named st :
  reachable st →
  Forall (fun c => nickname c ≠ EmptyString) (clients st) ∧
  (∀ s, handle_line s EmptyString st = st) ∧
  (∀ s c, find_client (clients st) s = Some c →
     (if empty (nickname c) then "unknown" else nickname c) = nickname c ∧
     ∃ new, trace (remove_client s st) = trace st ++
              EvStdout ("❌ " +:+ nickname c +:+ " disconnected" +:+ NL) ::
              new ++ [EvShutdown s; EvClose s] ∧
            sends new = (fun c' => (socket c', left_msg (nickname c))) <$>
                          filter (fun c' => socket c' ≠ s) (clients st)).
Proof.
  intros Hreach. apply reachable_inv in Hreach as [_ _ Hnamed].
  split; [done|]. split; [done|].
  intros s c Hfind.
  assert (empty (nickname c) = false) as Hname.
  { apply bool_decide_eq_false. eapply Forall_forall in Hnamed; [done|].
    by apply find_client_Some in Hfind as [? _]. }
  split; [by rewrite Hname|].
  destruct (remove_client_present os_send strerror s c st Hfind)
    as (_ & _ & _ & _ & new & Ht & Hn & _).
  rewrite Hname in Ht, Hn. eauto.
Qed.

(** C10: [recv] is asked for one byte less than the buffer holds, so a read
    gives at most 1023 bytes, the terminating zero is stored inside the
    buffer and [handle_client_data] always completes.  A queue of more than
    1023 bytes without terminator therefore takes at least two reads, and
    each read is handled as a message of its own: the pieces of at most 1023
    bytes, which together are the queue. *)
Theorem read_is_bounded s inp st :
  let buffer := replicate BUFFER_SIZE NUL in
  let bytes := fst (recv inp buffer (length buffer - 1)) in
  let filled := snd (recv inp buffer (length buffer - 1)) in
  bytes <= 1023 ∧ length filled = 1024%nat ∧
  (0 <= bytes → is_Some (vector_store filled (Z.to_nat bytes) NUL)) ∧
  is_Some (handle_client_data s inp st) ∧
  ∀ data, inp = RecvQueued data → (1023 < length data)%nat →
    Forall (fun c => is_terminator c = false) data →
    let reads := queue_reads (length data) data in
    let pieces := chunks (length data) 1023 data in
    (2 ≤ length reads)%nat ∧ length reads = length pieces ∧
    handle_reads os_send strerror s reads st =
      Some (fold_left (fun st piece => handle_line s piece st) pieces st) ∧
    mjoin (String.list_ascii_of_string <$> pieces) = data ∧
    Forall (fun piece => 0 < String.length piece ≤ 1023)%nat pieces.
Proof.
  intros buffer bytes filled.
  assert (length buffer = 1024%nat) as Hbuf by apply length_replicate.
  assert (bytes <= 1023) as Hbytes.
  { subst bytes. etrans; [apply recv_bound|]. rewrite Hbuf. done. }
  assert (length filled = 1024%nat) as Hfilled.
  { subst filled. destruct inp as [e|data]; simpl; [done|].
    rewrite length_app, length_drop, Hbuf, length_take. lia. }
  split; [done|]. split; [done|]. split; [|split].
  - intros Hpos. unfold vector_store. rewrite decide_True; [done|]. lia.
  - apply handle_client_data_total.
  - intros data _ Hlen Hdata reads pieces.
    change 1023%nat with (BUFFER_SIZE - 1)%nat in *.
    assert (0 < BUFFER_SIZE - 1)%nat as Hn by (unfold BUFFER_SIZE; lia).
    split; [|split; [|split; [|split]]].
    + subst reads. rewrite (queue_reads_length _ (BUFFER_SIZE - 1)) by done.
      apply chunks_at_least_two; lia.
    + by apply queue_reads_length.
    + apply handle_reads_chunks. by apply Forall_forall.
    + by apply chunks_concat.
    + by apply chunks_sizes.
Qed.

End Claims.

(** * The claims on the examples *)

Lemma st_alice_reachable : reachable send_all strerror_any st_alice.
Proof. by apply (run_example_reachable [turn_accept 4; turn_recv 4 ("alice" +:+ CRLF)]). Qed.

(** An anonymous connection on socket 4 reaches end of stream: the socket
    stays watched and is never closed. *)
Lemma disconnect_anonymous_not_closed_witness :
  4 ∈ master_set st_anonymous ∧
  ∃ st', handle_client_data send_all strerror_any 4 (RecvQueued []) st_anonymous = Some st' ∧
         clients st' = clients st_anonymous ∧
         master_set st' = master_set st_anonymous ∧
         max_fd st' = max_fd st_anonymous ∧
         ∃ line, trace st' = trace st_anonymous ++ [line] ∧ harmless line.
Proof.
  split; [by vm_compute|].
  apply (disconnect_anonymous_not_closed send_all strerror_any 4 (RecvQueued [])
           st_anonymous); reflexivity.
Defined.

(** Socket 4 is anonymous, socket 5 is bob and the bound; bob leaves: the
    bound falls to the listening socket 3, below the watched socket 4. *)
Lemma rescan_misses_anonymous_witness :
  let st' := remove_client send_all strerror_any 5 st_anonymous_bob in
  4 ∈ master_set st' ∧ max_fd st' < 4 ∧
  ∀ ready, 4 ∉ select (max_fd st' + 1) (master_set st') ready.
Proof.
  apply (rescan_misses_anonymous send_all strerror_any 5 4 (mkClient 5 "bob")
           st_anonymous_bob).
  - reflexivity.
  - reflexivity.
  - by vm_compute.
  - lia.
  - by vm_compute.
  - vm_compute. repeat constructor. intros H. by destruct H.
Defined.

(** bob, on socket 5, sends a line and the start of the next one. *)
Lemma read_dispatches_truncated_line_witness :
  handle_client_data send_all strerror_any 5
    (RecvQueued (String.list_ascii_of_string ("hello" +:+ NL +:+ "more")))
    st_anonymous_bob =
  Some (broadcast send_all strerror_any 5 (chat_msg "bob" "hello")
          (emit (EvStdout ("📢 bob: hello" +:+ NL)) st_anonymous_bob)).
Proof.
  pose proof (read_dispatches_truncated_line send_all strerror_any 5
                (String.list_ascii_of_string ("hello" +:+ NL +:+ "more"))
                st_anonymous_bob ltac:(done)) as (_ & _ & H).
  exact H.
Defined.

(** bob joins alice: one user online, alice. *)
Lemma welcome_on_registration_witness :
  ∃ new, trace (register_client send_all strerror_any 5 "bob" st_alice) =
           trace st_alice ++ EvStdout ("👤 Registered: bob" +:+ NL) ::
             EvSend 5 (online_msg 1 "alice") :: new ∧
         ∀ m, (5, m) ∉ sends new.
Proof.
  pose proof (welcome_on_registration send_all strerror_any 5 "bob" st_alice
                ltac:(reflexivity)) as [H _].
  exact H.
Defined.

(** Socket 5 claims alice's nickname. *)
Lemma register_collision_rejected_witness :
  find_client (clients st_alice) 5 = None ∧
  register_client send_all strerror_any 5 "alice" st_alice =
    emit (EvSend 5 taken_msg) st_alice.
Proof.
  split; [reflexivity|].
  apply (register_collision_rejected send_all strerror_any 5 "alice" st_alice).
  exists (mkClient 4 "alice"). split; [by constructor|]. split; [simpl; lia|done].
Defined.

(** alice leaves and socket 5 takes her nickname. *)
Lemma nickname_released_witness :
  clients (register_client send_all strerror_any 5 "alice"
             (remove_client send_all strerror_any 4 st_alice)) =
  [mkClient 5 "alice"].
Proof.
  pose proof (nickname_released send_all strerror_any st_alice 4
                (mkClient 4 "alice") 5 st_alice_reachable ltac:(reflexivity))
    as (_ & H & _).
  exact H.
Defined.

Lemma registry_entries_named_witness :
  Forall (fun c => nickname c ≠ EmptyString) (clients st_alice).
Proof.
  apply (registry_entries_named send_all strerror_any st_alice st_alice_reachable).
Defined.

(** 1500 bytes without terminator, queued on bob's socket, take two reads. *)
Lemma read_is_bounded_witness :
  let data := replicate 1500 "a"%char in
  (2 ≤ length (queue_reads (length data) data))%nat ∧
  length (chunks (length data) 1023 data) = 2%nat.
Proof.
  intros data.
  pose proof (read_is_bounded send_all strerror_any 5 (RecvQueued data)
                st_anonymous_bob) as (_ & _ & _ & _ & H).
  destruct (H data eq_refl) as (H2 & _).
  - unfold data. rewrite length_replicate. lia.
  - by apply Forall_replicate.
  - split; [exact H2|]. by vm_compute.
Defined.

(** * Further properties of the handlers *)

(** ** Closing events *)

Lemma closes_app (t1 t2 : list Event) : closes (t1 ++ t2) = closes t1 ++ closes t2.
Proof. unfold closes. apply omap_app. Qed.

Lemma shutdowns_app (t1 t2 : list Event) :
  shutdowns (t1 ++ t2) = shutdowns t1 ++ shutdowns t2.
Proof. unfold shutdowns. apply omap_app. Qed.

Lemma harmless_closes (tr : list Event) :
  Forall harmless tr → closes tr = [] ∧ shutdowns tr = [].
Proof.
  induction 1 as [|e tr He _ [IH1 IH2]]; [done|].
  destruct e; simpl in He; try done; by split.
Qed.

Lemma adds_nothing st : adds st st [] [] [].
Proof. exists []. by rewrite app_nil_r. Qed.

Lemma adds_emit e st :
  adds st (emit e st) (sends [e]) (closes [e]) (shutdowns [e]).
Proof. by exists [e]. Qed.

Lemma adds_trans st st1 st2 s1 c1 h1 s2 c2 h2 :
  adds st st1 s1 c1 h1 → adds st1 st2 s2 c2 h2 →
  adds st st2 (s1 ++ s2) (c1 ++ c2) (h1 ++ h2).
Proof.
  intros (n1 & Ht1 & <- & <- & <-) (n2 & Ht2 & <- & <- & <-).
  exists (n1 ++ n2). rewrite Ht2, Ht1, <- app_assoc.
  by rewrite sends_app, closes_app, shutdowns_app.
Qed.

Section HandlerProofs.

Variable os_send : list Event -> Z -> string -> SendRet.
Variable strerror : Z -> string.

Local Abbreviation broadcast := (broadcast os_send strerror).
Local Abbreviation register_client := (register_client os_send strerror).
Local Abbreviation remove_client := (remove_client os_send strerror).
Local Abbreviation handle_line := (handle_line os_send strerror).
Local Abbreviation handle_client_data := (handle_client_data os_send strerror).
Local Abbreviation handle_new_connection := (handle_new_connection os_send strerror).

Lemma broadcast_adds sender_fd text st :
  adds st (broadcast sender_fd text st)
    ((fun c => (socket c, text)) <$> filter (fun c => socket c ≠ sender_fd) (clients st))
    [] [].
Proof.
  destruct (broadcast_spec os_send strerror sender_fd text st)
    as (_ & _ & _ & _ & new & Ht & Hn & Hh).
  apply harmless_closes in Hh as [Hc Hs]. by exists new.
Qed.

Lemma register_client_fresh_adds s nick st :
  nickname_exists (clients st) nick = false →
  adds st (register_client s nick st)
    ((s, welcome_msg (clients st ++ [mkClient s nick]) s) ::
     ((fun c => (socket c, join_msg nick)) <$>
        filter (fun c => socket c ≠ s) (clients st)))
    [] [].
Proof.
  intros Hfresh.
  destruct (register_client_fresh os_send strerror s nick st Hfresh)
    as (_ & _ & _ & _ & new & Ht & Hn & Hh).
  apply harmless_closes in Hh as [Hc Hs].
  eexists. split; [exact Ht|]. simpl. by rewrite Hn, Hc, Hs.
Qed.

Lemma remove_client_present_adds s c st :
  find_client (clients st) s = Some c →
  let name := if empty (nickname c) then "unknown" else nickname c in
  adds st (remove_client s st)
    ((fun c => (socket c, left_msg name)) <$>
       filter (fun c => socket c ≠ s) (clients st))
    [s] [s].
Proof.
  intros Hfind name.
  destruct (remove_client_present os_send strerror s c st Hfind)
    as (_ & _ & _ & _ & new & Ht & Hn & Hh).
  apply harmless_closes in Hh as [Hc Hs]. fold name in Ht, Hn.
  eexists. split; [exact Ht|].
  rewrite app_comm_cons, sends_app, closes_app, shutdowns_app. simpl.
  rewrite Hn, Hc, Hs. unfold sends, closes, shutdowns. simpl.
  by rewrite app_nil_r.
Qed.

End HandlerProofs.

Lemma truncate_length chunk :
  (String.length (truncate_at_terminator chunk) ≤ String.length chunk)%nat.
Proof.
  induction chunk as [|c rest IH]; simpl; [done|].
  destruct (is_terminator c); simpl; lia.
Qed.

Section OutcomeProofs.

Variable os_send : list Event -> Z -> string -> SendRet.
Variable strerror : Z -> string.

Local Abbreviation handle_client_data := (handle_client_data os_send strerror).
Local Abbreviation read_outcome := (read_outcome os_send strerror).

Lemma handle_client_data_outcome s inp st :
  ∃ st', handle_client_data s inp st = Some st' ∧ read_outcome s inp st st'.
Proof.
  destruct inp as [e|[|a data]].
  - unfold handle_client_data, recv. simpl.
    destruct (_ || _); eexists; (split; [done|]);
      (destruct (find_client (clients st) s) as [c|] eqn:Hfind;
       [by eapply outcome_gone
       |rewrite remove_client_absent by done; by apply outcome_gone_anonymous]).
  - unfold handle_client_data, recv. rewrite take_nil. simpl.
    eexists. split; [done|].
    destruct (find_client (clients st) s) as [c|] eqn:Hfind;
      [by eapply outcome_gone
      |rewrite remove_client_absent by done; by apply outcome_gone_anonymous].
  - rewrite handle_client_data_queued by done. eexists. split; [done|].
    rewrite cut_line_truncate.
    set (chunk := String.string_of_list_ascii (take (BUFFER_SIZE - 1) (a :: data))).
    set (line := truncate_at_terminator chunk).
    assert (single_line line) as Hsingle.
    { apply Forall_forall. intros c Hc. by eapply truncate_no_terminator. }
    assert (String.length line ≤ 1023)%nat as Hlen.
    { etrans; [apply truncate_length|]. subst chunk.
      rewrite string_of_list_ascii_length, length_take.
      change (BUFFER_SIZE - 1)%nat with 1023%nat. lia. }
    unfold handle_line, empty. case_bool_decide as Hline; [constructor|].
    destruct (find_client (clients st) s) as [c|] eqn:Hfind.
    + by apply outcome_chat.
    + by apply outcome_register.
Qed.

End OutcomeProofs.

Section StepProofs.

Variable os_send : list Event -> Z -> string -> SendRet.
Variable strerror : Z -> string.

Local Abbreviation broadcast := (broadcast os_send strerror).
Local Abbreviation register_client := (register_client os_send strerror).
Local Abbreviation remove_client := (remove_client os_send strerror).
Local Abbreviation handle_client_data := (handle_client_data os_send strerror).
Local Abbreviation handle_new_connection := (handle_new_connection os_send strerror).
Local Abbreviation read_outcome := (read_outcome os_send strerror).

(** How a read changes the members of the server. *)
Lemma read_outcome_state s inp st st' :
  read_outcome s inp st st' →
  server_socket st' = server_socket st ∧
  ((clients st' = clients st ∧ master_set st' = master_set st ∧
    max_fd st' = max_fd st) ∨
   (find_client (clients st) s = None ∧
    (∃ line, line ≠ EmptyString ∧ single_line line ∧
             (String.length line ≤ 1023)%nat ∧
             nickname_exists (clients st) line = false ∧
             clients st' = clients st ++ [mkClient s line]) ∧
    master_set st' = master_set st ∧ max_fd st' = max_fd st) ∨
   (is_Some (find_client (clients st) s) ∧
    clients st' = filter (fun c => socket c ≠ s) (clients st) ∧
    master_set st' = master_set st ∖ {[s]} ∧
    max_fd st' = if decide (s = max_fd st)
                 then rescan_max (clients st') (server_socket st)
                 else max_fd st)).
Proof.
  destruct 1 as [|line Hgone Hfind _ _ _|c line Hgone Hfind _ _ _
                 |line Hline Hsingle Hlen Hfind|c line Hline Hsingle Hfind].
  - split; [done|]. by left.
  - split; [done|]. by left.
  - destruct (remove_client_present os_send strerror s c (emit line st) Hfind)
      as (Hc & Hs & Hm & Hx & _).
    split; [done|]. right. right. by eauto.
  - destruct (nickname_exists (clients st) line) eqn:Hex.
    + rewrite register_client_taken by done. split; [done|]. by left.
    + destruct (register_client_fresh os_send strerror s line st Hex)
        as (Hc & Hs & Hm & Hx & _).
      split; [done|]. right. left. repeat split; try done. by exists line.
  - destruct (broadcast_frame os_send strerror s (chat_msg (nickname c) line)
        (emit (EvStdout ("📢 " +:+ nickname c +:+ ": " +:+ line +:+ NL)) st))
      as (Hc & Hs & Hm & Hx).
    split; [done|]. by left.
Qed.

(** What a read adds to the trace. *)
Lemma read_outcome_adds s inp st st' :
  read_outcome s inp st st' →
  ∃ sent_to closed shut, adds st st' sent_to closed shut ∧
    (∀ fd m, (fd, m) ∈ sent_to → fd = s ∨ ∃ c, c ∈ clients st ∧ socket c = fd) ∧
    ((closed = [] ∧ shut = []) ∨
     (closed = [s] ∧ shut = [s] ∧ is_Some (find_client (clients st) s))).
Proof.
  assert (∀ (text : string) fd m,
    (fd, m) ∈ (fun c => (socket c, text)) <$>
                filter (fun c => socket c ≠ s) (clients st) →
    fd = s ∨ ∃ c, c ∈ clients st ∧ socket c = fd) as Hothers.
  { intros text fd m (c & Heq & Hc)%list_elem_of_fmap.
    apply list_elem_of_filter in Hc as [_ Hc]. inversion Heq. eauto. }
  destruct 1 as [|line Hgone Hfind Hs Hc Hh|c line Hgone Hfind Hs Hc Hh
                 |line Hline Hsingle Hlen Hfind|c line Hline Hsingle Hfind].
  - exists [], [], []. split; [apply adds_nothing|]. split; [|by left].
    by intros fd m ?%elem_of_nil.
  - exists [], [], []. split; [|split; [|by left]].
    + rewrite <- Hs at 1. rewrite <- Hc at 1. rewrite <- Hh. apply adds_emit.
    + by intros fd m ?%elem_of_nil.
  - eexists _, [s], [s]. split; [|split; [|right; eauto]].
    + pose proof (adds_trans _ _ _ _ _ _ _ _ _ (adds_emit line st)
        (remove_client_present_adds os_send strerror s c (emit line st) Hfind))
        as Hadds.
      rewrite Hs, Hc, Hh in Hadds. exact Hadds.
    + simpl. apply Hothers.
  - destruct (nickname_exists (clients st) line) eqn:Hex.
    + rewrite register_client_taken by done.
      eexists _, [], []. split; [apply adds_emit|]. split; [|by left].
      intros fd m Hin. simpl in Hin. apply list_elem_of_singleton in Hin.
      inversion Hin. by left.
    + eexists _, [], []. split; [by apply register_client_fresh_adds|].
      split; [|by left].
      intros fd m [Heq|Hin]%elem_of_cons; [inversion Heq; by left|].
      by eapply Hothers.
  - eexists _, [], []. split; [|split; [|by left]].
    + pose proof (adds_trans _ _ _ _ _ _ _ _ _
        (adds_emit (EvStdout ("📢 " +:+ nickname c +:+ ": " +:+ line +:+ NL)) st)
        (broadcast_adds os_send strerror s (chat_msg (nickname c) line)
           (emit (EvStdout ("📢 " +:+ nickname c +:+ ": " +:+ line +:+ NL)) st)))
        as Hadds.
      exact Hadds.
    + simpl. apply Hothers.
Qed.

End StepProofs.

(** ** The bound after a rescan *)

Lemma rescan_max_cons c cs start :
  rescan_max (c :: cs) start = rescan_max cs (Z.max start (socket c)).
Proof.
  unfold rescan_max. simpl. f_equal.
  destruct (Z.ltb_spec start (socket c)); lia.
Qed.

Lemma rescan_max_ge_start cs start : start <= rescan_max cs start.
Proof.
  revert start. induction cs as [|c cs IH]; intros start; [done|].
  rewrite rescan_max_cons. etrans; [|apply IH]. lia.
Qed.

Lemma rescan_max_ge cs start :
  Forall (fun c => socket c <= rescan_max cs start) cs.
Proof.
  revert start. induction cs as [|c cs IH]; intros start; [constructor|].
  rewrite rescan_max_cons. constructor; [|apply IH].
  etrans; [|apply rescan_max_ge_start]. lia.
Qed.

Lemma rescan_max_attained cs start :
  rescan_max cs start = start ∨ rescan_max cs start ∈ socket <$> cs.
Proof.
  revert start. induction cs as [|c cs IH]; intros start; [by left|].
  rewrite rescan_max_cons, fmap_cons.
  destruct (IH (Z.max start (socket c))) as [->|Hin].
  - destruct (Z.max_spec start (socket c)) as [[_ ->]|[_ ->]];
      [right; apply elem_of_cons; by left|by left].
  - right. apply elem_of_cons. by right.
Qed.

(** ** Accepting a connection *)

Section AcceptProofs.

Variable os_send : list Event -> Z -> string -> SendRet.
Variable strerror : Z -> string.

Local Abbreviation handle_new_connection := (handle_new_connection os_send strerror).


End AcceptProofs.

(** ** Watched set and registry along the loop *)

Section WatchedProofs.

Variable os_send : list Event -> Z -> string -> SendRet.
Variable strerror : Z -> string.

Local Abbreviation handle_client_data := (handle_client_data os_send strerror).
Local Abbreviation handle_new_connection := (handle_new_connection os_send strerror).
Local Abbreviation read_outcome := (read_outcome os_send strerror).
Local Abbreviation reachable := (reachable os_send strerror).





(** Reads only shrink the watched set, and only at the socket read. *)
Lemma read_outcome_master_set s inp st st' fd :
  read_outcome s inp st st' →
  (fd ∈ master_set st' → fd ∈ master_set st) ∧
  (fd ≠ s → fd ∈ master_set st → fd ∈ master_set st').
Proof.
  intros Hout.
  destruct (read_outcome_state os_send strerror s inp st st' Hout)
    as (_ & [(_ & -> & _)|[(_ & _ & -> & _)|(_ & _ & -> & _)]]); try done.
  rewrite elem_of_difference, elem_of_singleton. tauto.
Qed.






Lemma ready_loop_none fds read_fds inp st :
  (∀ fd, fd ∈ fds → fd ∉ read_fds) →
  ready_loop os_send strerror fds read_fds inp st = Some st.
Proof.
  induction fds as [|fd fds IH]; intros Hnone; [done|]. simpl.
  rewrite decide_False by (apply Hnone, elem_of_cons; by left).
  simpl. apply IH. intros fd' Hfd'. apply Hnone, elem_of_cons. by right.
Qed.

End WatchedProofs.

Lemma find_client_split cs s c :
  NoDup (socket <$> cs) → find_client cs s = Some c →
  ∃ before after, cs = before ++ c :: after ∧
                  filter (fun c => socket c ≠ s) cs = before ++ after.
Proof.
  induction cs as [|a cs IH]; [done|].
  rewrite fmap_cons. intros [Ha Hnd]%NoDup_cons. simpl.
  destruct (decide (socket a = s)) as [Heq|Hne].
  - intros [= ->]. exists [], cs. split; [done|].
    rewrite filter_cons_False by (intros H; by apply H).
    apply filter_absent, find_client_None. intros c' Hc' Hs. apply Ha.
    apply list_elem_of_fmap. exists c'. by rewrite Hs.
  - intros Hfind. destruct (IH Hnd Hfind) as (before & after & -> & Hf).
    exists (a :: before), after. split; [done|].
    by rewrite filter_cons_True, Hf.
Qed.

Lemma filter_all {A} (P : A → Prop) `{∀ x, Decision (P x)} (l : list A) :
  Forall P l → filter P l = l.
Proof.
  induction 1 as [|x l Hx _ IH]; [done|]. by rewrite filter_cons_True, IH.
Qed.

(** * Further properties *)

Section Further.

Variable os_send : list Event -> Z -> string -> SendRet.
Variable strerror : Z -> string.

Local Abbreviation broadcast := (broadcast os_send strerror).
Local Abbreviation register_client := (register_client os_send strerror).
Local Abbreviation remove_client := (remove_client os_send strerror).
Local Abbreviation handle_client_data := (handle_client_data os_send strerror).
Local Abbreviation handle_new_connection := (handle_new_connection os_send strerror).
Local Abbreviation read_outcome := (read_outcome os_send strerror).
Local Abbreviation reachable := (reachable os_send strerror).
Local Abbreviation run := (run os_send strerror).
Local Abbreviation run_iteration := (run_iteration os_send strerror).


(** X2: in a reachable state, when the peer of a registered client is gone
    (no byte or an error on its socket), exactly the entry of that client
    leaves the registry and the others keep their order; every remaining
    client is sent the leave notice with the nickname, in registry order;
    the socket is shut down, closed and no longer watched. *)
Theorem named_disconnect st s c inp :
  reachable st → find_client (clients st) s = Some c → peer_gone inp →
  ∃ st' before after,
    handle_client_data s inp st = Some st' ∧
    clients st = before ++ c :: after ∧ clients st' = before ++ after ∧
    find_client (clients st') s = None ∧
    master_set st' = master_set st ∖ {[s]} ∧
    adds st st'
      ((fun c' => (socket c', left_msg (nickname c))) <$> (before ++ after))
      [s] [s].
Proof.
  intros Hreach Hfind Hgone.
  apply reachable_inv in Hreach as [_ Hsock Hnamed].
  destruct (find_client_split _ _ _ Hsock Hfind) as (before & after & Hcs & Hf).
  assert (empty (nickname c) = false) as Hname.
  { apply bool_decide_eq_false. eapply Forall_forall in Hnamed; [done|].
    by apply find_client_Some in Hfind as [? _]. }
  assert (∀ line, sends [line] = [] → closes [line] = [] → shutdowns [line] = [] →
    let st' := remove_client s (emit line st) in
    clients st' = before ++ after ∧ find_client (clients st') s = None ∧
    master_set st' = master_set st ∖ {[s]} ∧
    adds st st'
      ((fun c' => (socket c', left_msg (nickname c))) <$> (before ++ after))
      [s] [s]) as Hrem.
  { intros line Hs Hc Hh st'.
    destruct (remove_client_present os_send strerror s c (emit line st) Hfind)
      as (Hcl & _ & Hm & _).
    fold st' in Hcl, Hm. simpl in Hcl, Hm. rewrite Hcl, Hm, Hf.
    repeat split; try done.
    - rewrite <- Hf. apply find_client_removed.
    - pose proof (adds_trans _ _ _ _ _ _ _ _ _ (adds_emit line st)
        (remove_client_present_adds os_send strerror s c (emit line st) Hfind))
        as Hadds.
      rewrite Hs, Hc, Hh, Hname in Hadds. simpl in Hadds. by rewrite Hf in Hadds. }
  destruct inp as [e|data]; simpl in Hgone; subst;
    unfold handle_client_data, recv; rewrite ?take_nil; simpl.
  - destruct (_ || _); eexists _, before, after;
      (split; [done|]); (split; [done|]); by apply Hrem.
  - eexists _, before, after. split; [done|]. split; [done|]. by apply Hrem.
Qed.

(** X3: removing a client twice is removing it once, and after a removal the
    socket has no registry entry. *)
Theorem disconnect_twice s st :
  remove_client s (remove_client s st) = remove_client s st ∧
  find_client (clients (remove_client s st)) s = None.
Proof.
  assert (find_client (clients (remove_client s st)) s = None) as Hgone.
  { rewrite remove_client_clients. apply find_client_removed. }
  split; [|done]. by apply remove_client_absent.
Qed.

(** X4: when a registered client is removed, the bound is kept unless it was
    that client's socket; in that case the new bound is the largest among the
    listening socket and the sockets of the clients that remain. *)
Theorem bound_after_disconnect s c st :
  find_client (clients st) s = Some c →
  let st' := remove_client s st in
  (s ≠ max_fd st → max_fd st' = max_fd st) ∧
  (s = max_fd st →
     server_socket st <= max_fd st' ∧
     Forall (fun c' => socket c' <= max_fd st') (clients st') ∧
     (max_fd st' = server_socket st ∨ max_fd st' ∈ socket <$> clients st')).
Proof.
  intros Hfind st'.
  destruct (remove_client_present os_send strerror s c st Hfind)
    as (_ & _ & _ & Hx & _). fold st' in Hx.
  split; intros Hs; rewrite Hx.
  - by rewrite decide_False.
  - rewrite decide_True by done.
    split; [apply rescan_max_ge_start|].
    split; [apply rescan_max_ge|apply rescan_max_attained].
Qed.

(** X5: a non-empty line read from a registered client is sent, formatted
    with the client's nickname, to every other registered client in registry
    order and to nobody else; registry, watched set and bound stay as they
    are, so a later line never changes the nickname. *)
Theorem chat_line_delivery s c data st :
  find_client (clients st) s = Some c → data ≠ [] →
  let line := truncate_at_terminator
                (String.string_of_list_ascii (take (BUFFER_SIZE - 1) data)) in
  line ≠ EmptyString →
  ∃ st', handle_client_data s (RecvQueued data) st = Some st' ∧
    clients st' = clients st ∧ master_set st' = master_set st ∧
    max_fd st' = max_fd st ∧
    adds st st'
      ((fun c' => (socket c', chat_msg (nickname c) line)) <$>
         filter (fun c' => socket c' ≠ s) (clients st))
      [] [].
Proof.
  intros Hfind Hdata line Hline.
  rewrite handle_client_data_queued, cut_line_truncate by done. fold line.
  eexists. split; [done|]. unfold handle_line, empty.
  rewrite bool_decide_eq_false_2, Hfind by done.
  set (st1 := emit (EvStdout ("📢 " +:+ nickname c +:+ ": " +:+ line +:+ NL)) st).
  destruct (broadcast_frame os_send strerror s (chat_msg (nickname c) line) st1)
    as (Hc & _ & Hm & Hx).
  rewrite Hc, Hm, Hx. repeat split; try done.
  apply (adds_trans _ _ _ _ _ _ _ _ _ (adds_emit _ st)
           (broadcast_adds os_send strerror s (chat_msg (nickname c) line) st1)).
Qed.

(** X6: in a reachable state, when a connection without entry registers
    under a free nickname, it is sent the welcome message, which counts and
    lists every client registered before it, and then each of those clients
    is sent the join notice, in registry order; nothing else is sent. *)
Theorem registration_announced st s nick :
  reachable st → find_client (clients st) s = None →
  nickname_exists (clients st) nick = false →
  let welcome :=
    if decide (clients st = []) then alone_msg
    else online_msg (length (clients st)) (comma_join (nickname <$> clients st)) in
  adds st (register_client s nick st)
    ((s, welcome) :: ((fun c => (socket c, join_msg nick)) <$> clients st))
    [] [].
Proof.
  intros Hreach Hfind Hfresh welcome.
  apply reachable_inv in Hreach as [_ _ Hnamed].
  pose proof (register_client_fresh_adds os_send strerror s nick st Hfresh) as Hadds.
  rewrite welcome_msg_joining in Hadds.
  assert (named_others (clients st) s = clients st) as Hothers.
  { unfold named_others. rewrite filter_absent by done. by apply filter_all. }
  rewrite Hothers in Hadds. by rewrite filter_absent in Hadds.
Qed.

(** X7: a read on socket [s] always completes, and whatever it holds it
    changes the registry and the watched set at most at [s]: the entries of
    the other sockets stay, in order, no descriptor becomes watched, and only
    [s] can be closed or shut down.  What it sends goes to [s] or to the
    socket of a registered client, never to another connection that has not
    registered. *)
Theorem read_touches_only_its_socket s inp st :
  ∃ st', handle_client_data s inp st = Some st' ∧
    server_socket st' = server_socket st ∧
    filter (fun c => socket c ≠ s) (clients st') =
      filter (fun c => socket c ≠ s) (clients st) ∧
    (∀ fd, fd ∈ master_set st' → fd ∈ master_set st) ∧
    (∀ fd, fd ≠ s → fd ∈ master_set st → fd ∈ master_set st') ∧
    ∃ sent_to closed shut, adds st st' sent_to closed shut ∧
      (∀ fd m, (fd, m) ∈ sent_to → fd = s ∨ ∃ c, c ∈ clients st ∧ socket c = fd) ∧
      (∀ fd, fd ∈ closed ++ shut → fd = s).
Proof.
  destruct (handle_client_data_outcome os_send strerror s inp st)
    as (st' & Heq & Hout).
  exists st'. split; [done|].
  destruct (read_outcome_state os_send strerror s inp st st' Hout) as (Hsrv & Hcases).
  split; [done|]. split; [|split; [|split]].
  - destruct Hcases as [(-> & _)|[(_ & (line & _ & _ & _ & _ & ->) & _)|(_ & -> & _)]].
    + done.
    + rewrite filter_app, filter_cons_False, filter_nil, app_nil_r; [done|].
      simpl. by intros H.
    + rewrite list_filter_filter. apply list_filter_iff. tauto.
  - intros fd. by apply (proj1 (read_outcome_master_set os_send strerror _ _ _ _ fd Hout)).
  - intros fd. by apply (proj2 (read_outcome_master_set os_send strerror _ _ _ _ fd Hout)).
  - destruct (read_outcome_adds os_send strerror s inp st st' Hout)
      as (sent_to & closed & shut & Hadds & Hsent & Hclosed).
    exists sent_to, closed, shut. split; [done|]. split; [done|].
    intros fd. destruct Hclosed as [[-> ->]|(-> & -> & _)].
    + by intros ?%elem_of_nil.
    + intros [Hin|[Hin|Hin%elem_of_nil]%elem_of_cons]%elem_of_cons; done.
Qed.

(** X8: in a reachable state no two registry entries have the same socket,
    and [find_client] finds a client exactly when it is the registry entry
    of that socket. *)
Theorem one_entry_per_socket st :
  reachable st →
  NoDup (socket <$> clients st) ∧
  ∀ s c, find_client (clients st) s = Some c ↔ c ∈ clients st ∧ socket c = s.
Proof.
  intros Hreach. apply reachable_inv in Hreach as [_ Hsock _].
  split; [done|]. intros s c. split; [apply find_client_Some|].
  intros [Hin Hs].
  destruct (find_client (clients st) s) as [c'|] eqn:Hfind.
  - apply find_client_Some in Hfind as [Hin' Hs'].
    apply list_elem_of_lookup in Hin as [i Hi], Hin' as [j Hj].
    assert (i = j) as ->.
    { eapply NoDup_lookup; [exact Hsock| |].
      - by rewrite list_lookup_fmap, Hi.
      - rewrite list_lookup_fmap, Hj. simpl. by rewrite Hs, Hs'. }
    congruence.
  - eapply find_client_None in Hfind; [|exact Hin]. done.
Qed.


(** X10: a turn in which [select] is interrupted, or in which none of the
    watched descriptors up to the bound is readable, changes nothing: no
    member of the server, no output, no system call. *)
Theorem quiet_turn_changes_nothing inp st :
  quiet_turn inp st → run_iteration inp st = Some st.
Proof.
  unfold quiet_turn, run_iteration.
  destruct (in_select inp) as [e|ready].
  - intros ->. done.
  - intros Hquiet. apply ready_loop_none.
    intros fd Hfd%elem_of_seqZ. unfold select. rewrite elem_of_filter.
    intros [[_ Hready] Hw]. apply (Hquiet fd); [done..|lia].
Qed.

(** X11: in a reachable state every registered nickname is a single line: it
    holds no carriage return or line feed and has between 1 and 1023 bytes. *)
Theorem nicknames_are_single_lines st :
  reachable st →
  Forall (fun c => single_line (nickname c) ∧
                   (1 ≤ String.length (nickname c) ≤ 1023)%nat) (clients st).
Proof.
  induction 1 as [fd Hfd|st a _ IH|st s inp st' _ IH Hs Hdata|st e _ IH].
  - constructor.
  - by destruct (handle_new_connection_clients os_send strerror a st) as [-> _].
  - destruct (handle_client_data_outcome os_send strerror s inp st)
      as (st1 & Heq & Hout). rewrite Heq in Hdata. injection Hdata as <-.
    destruct (read_outcome_state os_send strerror s inp st st1 Hout)
      as (_ & [(-> & _)|[(_ & (line & Hne & Hsingle & Hlen & _ & ->) & _)
                        |(_ & -> & _)]]); [done| |].
    + apply Forall_app. split; [done|]. constructor; [|constructor].
      simpl. split; [done|]. destruct line; [done|simpl in *; lia].
    + apply Forall_forall. intros c [_ Hc]%list_elem_of_filter.
      by eapply Forall_forall in IH.
  - done.
Qed.

(** X12: a connection whose claim was rejected can claim again: the
    rejection leaves the registry as it was, and a following claim of a free
    nickname adds the entry; the connection is sent the rejection and then
    the welcome, and the registered clients are sent the join notice. *)
Theorem rejected_claim_can_retry s taken free st :
  nickname_exists (clients st) taken = true →
  nickname_exists (clients st) free = false →
  let st1 := register_client s taken st in
  let st2 := register_client s free st1 in
  clients st1 = clients st ∧ master_set st1 = master_set st ∧
  clients st2 = clients st ++ [mkClient s free] ∧
  adds st st2
    ((s, taken_msg) ::
     (s, welcome_msg (clients st ++ [mkClient s free]) s) ::
     ((fun c => (socket c, join_msg free)) <$>
        filter (fun c => socket c ≠ s) (clients st)))
    [] [].
Proof.
  intros Htaken Hfree st1 st2.
  assert (st1 = emit (EvSend s taken_msg) st) as Hst1.
  { subst st1. by rewrite register_client_taken. }
  assert (nickname_exists (clients st1) free = false) as Hfree1 by by rewrite Hst1.
  split; [by rewrite Hst1|]. split; [by rewrite Hst1|]. split.
  - subst st2. rewrite register_client_clients, Hfree1. by rewrite Hst1.
  - pose proof (register_client_fresh_adds os_send strerror s free st1 Hfree1)
      as Hadds.
    fold st2 in Hadds. rewrite Hst1 in Hadds at 1 2 3. simpl in Hadds.
    apply (adds_trans _ _ _ _ _ _ _ _ _ (adds_emit (EvSend s taken_msg) st) Hadds).
Qed.

End Further.

(** * The further properties on the examples *)

Lemma st_alice_bob_reachable : reachable send_all strerror_any st_alice_bob.
Proof.
  by apply (run_example_reachable
    [turn_accept 4; turn_recv 4 ("alice" +:+ CRLF);
     turn_accept 5; turn_recv 5 ("bob" +:+ CRLF)]).
Qed.

(** alice's peer closes: bob is told, socket 4 is closed and unwatched. *)
Lemma named_disconnect_witness :
  ∃ st' before after,
    handle_client_data send_all strerror_any 4 (RecvQueued []) st_alice_bob = Some st' ∧
    clients st_alice_bob = before ++ mkClient 4 "alice" :: after ∧
    clients st' = before ++ after ∧
    find_client (clients st') 4 = None ∧
    master_set st' = master_set st_alice_bob ∖ {[4]} ∧
    adds st_alice_bob st'
      ((fun c' => (socket c', left_msg "alice")) <$> (before ++ after)) [4] [4].
Proof.
  apply (named_disconnect send_all strerror_any st_alice_bob 4 (mkClient 4 "alice")
           (RecvQueued []) st_alice_bob_reachable); reflexivity.
Defined.

(** bob, on the bound 5, leaves while alice stays on 4: the bound becomes 4. *)
Lemma bound_after_disconnect_witness :
  let st' := remove_client send_all strerror_any 5 st_alice_bob in
  server_socket st_alice_bob <= max_fd st' ∧
  Forall (fun c' => socket c' <= max_fd st') (clients st') ∧
  (max_fd st' = server_socket st_alice_bob ∨ max_fd st' ∈ socket <$> clients st').
Proof.
  apply (bound_after_disconnect send_all strerror_any 5 (mkClient 5 "bob")
           st_alice_bob); reflexivity.
Defined.

(** bob says hello: alice gets the chat line, bob does not. *)
Lemma chat_line_delivery_witness :
  ∃ st', handle_client_data send_all strerror_any 5
           (RecvQueued (String.list_ascii_of_string ("hello" +:+ NL))) st_alice_bob =
         Some st' ∧
    clients st' = clients st_alice_bob ∧ master_set st' = master_set st_alice_bob ∧
    max_fd st' = max_fd st_alice_bob ∧
    adds st_alice_bob st' [(4, chat_msg "bob" "hello")] [] [].
Proof.
  apply (chat_line_delivery send_all strerror_any 5 (mkClient 5 "bob")
           (String.list_ascii_of_string ("hello" +:+ NL)) st_alice_bob);
    [reflexivity|done|done].
Defined.

(** bob joins alice. *)
Lemma registration_announced_witness :
  adds st_alice (register_client send_all strerror_any 5 "bob" st_alice)
    [(5, online_msg 1 "alice"); (4, join_msg "bob")] [] [].
Proof.
  apply (registration_announced send_all strerror_any st_alice 5 "bob"
           st_alice_reachable); reflexivity.
Defined.

Lemma one_entry_per_socket_witness :
  NoDup (socket <$> clients st_alice_bob) ∧
  ∀ s c, find_client (clients st_alice_bob) s = Some c ↔
         c ∈ clients st_alice_bob ∧ socket c = s.
Proof.
  apply (one_entry_per_socket send_all strerror_any st_alice_bob
           st_alice_bob_reachable).
Defined.


(** Only descriptor 7, which is not watched, is readable. *)
Lemma quiet_turn_changes_nothing_witness :
  run_iteration send_all strerror_any
    (mkLoopInput (SelectReady {[7]}) no_accept (fun _ => RecvQueued [])) st_alice_bob =
  Some st_alice_bob.
Proof.
  apply (quiet_turn_changes_nothing send_all strerror_any).
  intros fd Hfd%elem_of_singleton Hw. subst fd.
  exfalso. revert Hw. by vm_compute.
Defined.

Lemma nicknames_are_single_lines_witness :
  Forall (fun c => single_line (nickname c) ∧
                   (1 ≤ String.length (nickname c) ≤ 1023)%nat)
         (clients st_alice_bob).
Proof.
  apply (nicknames_are_single_lines send_all strerror_any st_alice_bob
           st_alice_bob_reachable).
Defined.

(** Socket 5 claims alice's nickname, is rejected, and then claims bob. *)
Lemma rejected_claim_can_retry_witness :
  clients (register_client send_all strerror_any 5 "bob"
             (register_client send_all strerror_any 5 "alice" st_alice)) =
  clients st_alice ++ [mkClient 5 "bob"].
Proof.
  apply (rejected_claim_can_retry send_all strerror_any 5 "alice" "bob" st_alice);
    reflexivity.
Defined.
